(** * Conway's Game of Life on a wrapping grid (gol.py)

    A shallow embedding of the simulation core of [gol.py]: the grid as a
    Python list of lists of one-character strings, the wrapped neighbour
    lookup, the birth/survival rule, grid seeding, and the main loop as a
    step function over the keys and window sizes the terminal supplies.

    Conventions of the embedding:
    - Python integers are [Z]; a list index follows Python's rules
      (a negative index counts from the end, anything outside
      [-len, len) is an [IndexError], modelled as [None]);
    - a function that can raise returns [option]; the place that catches
      or propagates the exception is written out in [loop_body];
    - [random.randint] and the terminal (keys, window size, drawing
      failures) are inputs of the functions that consult them. *)

From Stdlib Require Import ZArith Lia SpecFloat.
From Stdlib Require Import Ascii.
From stdpp Require Import base option list strings.

Local Open Scope Z_scope.

(** ** Python lists *)

Section PyList.
Context {A : Type}.

Definition len (l : list A) : Z := Z.of_nat (length l).

(** Position denoted by index [i] in a list of length [n]. *)
Definition py_index (i n : Z) : option nat :=
  if (0 <=? i) && (i <? n) then Some (Z.to_nat i)
  else if (i <? 0) && (- n <=? i) then Some (Z.to_nat (n + i))
  else None.

(** [l[i]] *)
Definition getitem (l : list A) (i : Z) : option A :=
  k ← py_index i (len l); l !! k.

(** [l[i] = v] *)
Definition setitem (l : list A) (i : Z) (v : A) : option (list A) :=
  k ← py_index i (len l); Some (<[k:=v]> l).
End PyList.

(** ** Cells and grids *)

Abbreviation cell := string (only parsing).
Definition dead_c : cell := "-".
Definition alive_c : cell := "x".

Abbreviation Grid := (list (list string)) (only parsing).

(** [grid[y][x]] *)
Definition cell_at (g : Grid) (x y : Z) : option cell :=
  row ← getitem g y; getitem row x.

(** [grid[y][x] = v]; the rows of a grid are distinct list objects
    (each one is built by its own comprehension in [set_up_grid]), so the
    update of one row leaves the others as they are. *)
Definition set_cell (g : Grid) (x y : Z) (v : cell) : option Grid :=
  row ← getitem g y; row' ← setitem row x v; setitem g y row'.

(** ** The grid engine *)

Definition wrap_border (x y : Z) (g : Grid) : option (Z * Z) :=
  let rows := len g in
  row0 ← getitem g 0;
  let cols := len row0 in
  let x := if cols <=? x then x - cols
           else if x <? 0 then cols + x else x in
  let y := if rows <=? y then y - rows
           else if y <? 0 then rows + y else y in
  Some (x, y).

Definition get_coordinate_value (x y : Z) (g : Grid) : option bool :=
  '(x, y) ← wrap_border x y g;
  c ← cell_at g x y;
  Some (String.eqb c alive_c).

(** One [if get_coordinate_value(...): sum_fields += 1] statement. *)
Definition count_if (x y : Z) (g : Grid) (sum_fields : Z) : option Z :=
  b ← get_coordinate_value x y g;
  Some (if b : bool then sum_fields + 1 else sum_fields).

Definition sum_adjecent_fields (x y : Z) (g : Grid) : option Z :=
  s ← count_if (x - 1) y g 0;
  s ← count_if (x - 1) (y - 1) g s;
  s ← count_if (x - 1) (y + 1) g s;
  s ← count_if (x + 1) y g s;
  s ← count_if (x + 1) (y - 1) g s;
  s ← count_if (x + 1) (y + 1) g s;
  s ← count_if x (y - 1) g s;
  count_if x (y + 1) g s.

Definition decide_fate (x y sum_fields : Z) (g : Grid) : option cell :=
  is_alive ← get_coordinate_value x y g;
  let sum_fields := if is_alive : bool then sum_fields + 1 else sum_fields in
  if sum_fields =? 3 then Some alive_c
  else if sum_fields =? 4 then Some (if is_alive then alive_c else dead_c)
  else Some dead_c.

(** The rule as the design states it: a live cell survives with two or
    three live neighbours, a dead cell is born with exactly three, and
    every other combination is dead. *)
Definition classic_rule (alive : bool) (n : Z) : cell :=
  if alive then (if (n =? 2) || (n =? 3) then alive_c else dead_c)
  else (if n =? 3 then alive_c else dead_c).

Definition check_for_extinction (g : Grid) : bool :=
  forallb (forallb (fun col => negb (String.eqb col alive_c))) g.

(** ** Seeding *)

(** [float(n)] for a Python integer: the nearest binary64 value, ties to
    even; an integer beyond the range of a double is an [OverflowError].
    (The conversion never yields a NaN; the branch is there because
    [spec_float] has the constructor.) *)
Definition float_of_int (n : Z) : option spec_float :=
  match binary_normalize 53 1024 n 0 false with
  | S754_infinity _ | S754_nan => None
  | f => Some f
  end.

(** [int(f)]: truncation toward zero; an error on infinities and NaN. *)
Definition int_of_float (f : spec_float) : option Z :=
  match f with
  | S754_zero _ => Some 0
  | S754_finite s m e =>
      Some (cond_Zopp s (if 0 <=? e then Z.pos m * 2 ^ e
                         else Z.pos m `div` 2 ^ (- e)))
  | S754_infinity _ | S754_nan => None
  end.

(** [int((seed_percentage / 100.0) * (rows * cols))] *)
Definition seed_count (seed_percentage rows cols : Z) : option Z :=
  p ← float_of_int seed_percentage;
  h ← float_of_int 100;
  n ← float_of_int (rows * cols);
  int_of_float (SFmul 53 1024 (SFdiv 53 1024 p h) n).

(** The random source is a sequence of raw draws; [randint rnd k a b] is
    the value [random.randint(a, b)] returns on the [k]-th draw: some
    integer of [a..b], or a [ValueError] when the range is empty. *)
Definition randint (rnd : nat → Z) (k : nat) (a b : Z) : option Z :=
  if b <? a then None else Some (a + rnd k `mod` (b - a + 1)).

(** The coordinate picked by the [j]-th pass of the seeding loop, as
    [(x, y)]; [y] is drawn first. *)
Definition seed_trial (rnd : nat → Z) (rows cols : Z) (j : nat)
  : option (Z * Z) :=
  y ← randint rnd (2 * j) 0 (rows - 1);
  x ← randint rnd (2 * j + 1) 0 (cols - 1);
  Some (x, y).

(** [for _ in xrange(0, seeds)]: passes [j, j+1, ..., j+n-1]. *)
Fixpoint seed_loop (n : nat) (rnd : nat → Z) (rows cols : Z) (j : nat)
    (g : Grid) : option Grid :=
  match n with
  | O => Some g
  | S n' =>
      '(x, y) ← seed_trial rnd rows cols j;
      g' ← set_cell g x y alive_c;
      seed_loop n' rnd rows cols (S j) g'
  end.

(** [sys.maxint], the largest C long; the value is that of a 64-bit
    build. *)
Definition maxint : Z := 2 ^ 63 - 1.

(** The integers that are a C long. *)
Definition c_long (z : Z) : Prop := - maxint - 1 ≤ z ≤ maxint.

(** Number of passes of a loop over [xrange(0, stop)]: none when [stop]
    is not positive; [xrange] takes C longs only and raises an
    [OverflowError] for any other integer. *)
Definition xrange (stop : Z) : option nat :=
  if (- maxint - 1 <=? stop) && (stop <=? maxint)
  then Some (Z.to_nat stop) else None.

(** [set_up_grid(seed_grid)], given the global [seed_percentage] and the
    pair [get_grid_dimensions()] returns; [seed_grid] is [Some rnd] for
    [seed_grid=True] with random source [rnd], and [None] for
    [seed_grid=False]. The row comprehension, with its own [xrange], is
    evaluated once per row; the [xrange] over the seeds only when the
    grid is seeded. *)
Definition set_up_grid (seed_percentage : Z) (dims : Z * Z)
    (seed_grid : option (nat → Z)) : option Grid :=
  let '(cols, rows) := dims in
  seeds ← seed_count seed_percentage rows cols;
  nrows ← xrange (rows + 1);
  g ← match nrows with
      | O => Some []
      | S _ =>
          ncols ← xrange (cols + 1);
          Some (replicate nrows (replicate ncols dead_c))
      end;
  match seed_grid with
  | Some rnd =>
      passes ← xrange seeds; seed_loop passes rnd rows cols 0%nat g
  | None => Some g
  end.

(** [get_grid_dimensions()] for a window of [max_y] lines and [max_x]
    columns. *)
Definition x_padding : Z := 1.
Definition y_padding : Z := 7.

Definition get_grid_dimensions (max_y max_x : Z) : Z * Z :=
  (max_x - x_padding - 2, max_y - y_padding - 3).

(** ** Rendering and input *)

(** One [stdscr.addstr(y, x, value, color_pair(color))] call. *)
Record addstr_call := Addstr {
  at_y : Z;
  at_x : Z;
  value : cell;
  color : Z
}.

(** [draw(grid)] as the sequence of [addstr] calls it makes; the counters
    start at 1 to leave the window border alone. The source picks the
    colour with [value is alive_c]; every live cell of a grid holds the
    one string object [alive_c], so the test is modelled as equality. *)
Fixpoint draw_row (row : list cell) (y_cnt x_cnt : Z) : list addstr_call :=
  match row with
  | [] => []
  | value :: row' =>
      let color := if String.eqb value alive_c then 2 else 1 in
      Addstr y_cnt x_cnt value color :: draw_row row' y_cnt (x_cnt + 1)
  end.

Fixpoint draw_rows (g : Grid) (y_cnt : Z) : list addstr_call :=
  match g with
  | [] => []
  | row :: g' => draw_row row y_cnt 1 ++ draw_rows g' (y_cnt + 1)
  end.

Definition draw (g : Grid) : list addstr_call := draw_rows g 1.

Inductive message :=
  | Iterations (n : Z)          (* "Iterations: %d" % n *)
  | Text (msg : string).

Definition msg_extinct : string :=
  "All cells are dead. Try increasing theseed percentage!".
Definition msg_equilibrium : string := "True equilibrium achieved! ".
Definition msg_stable : string :=
  "Grid is as stable as it will ever be. Press Enter to seed a new grid.".

(** What one pass of the loop does to the terminal, in order. A
    [put_msg] call is recorded as made: it swallows a failing [addstr]
    (its test ["addstr" in ex] looks for an argument of the exception
    equal to that word, and there is none). *)
Inductive event :=
  | Draw (calls : list addstr_call)             (* draw(grid) *)
  | PutMsg (msg : message) (offset_y : Z)        (* put_msg(messages, ..) *)
  | Pause (c : Z)                                (* pause() read key c *)
  | Compare (next_grid grandfather_grid : Grid)  (* next_grid == grand.. *)
  | Nap (ms : Z).                                (* curses.napms(ms) *)

Definition ord (c : Ascii.ascii) : Z := Z.of_N (Ascii.N_of_ascii c).
Arguments ord c%_char.

(** [curses.KEY_RESIZE], the key code ncurses reports for a resized
    window. *)
Definition KEY_RESIZE : Z := 410.

(** [pause()] reading key [c]: [true] when it calls [graceful_exit]. *)
Definition pause (c : Z) : bool := c =? ord "q".

(** Result of [check_input()]: the program exited, or the call returned
    ([True] for a re-seed, [None] otherwise) leaving the global
    [sleep_interval] at the given value. *)
Inductive polled :=
  | PollExit
  | Polled (reseed : bool) (sleep_interval : Z).

(** [check_input()] with [sleep_interval] the global's value on entry,
    [q] the key [getch] returns and [c] the key a [pause()] would read. *)
Definition check_input (sleep_interval q c : Z) : list event * polled :=
  if q =? ord "q" then ([], PollExit)
  else if (q =? ord "p") && pause c then ([Pause c], PollExit)
  else
    let ev := if q =? ord "p" then [Pause c] else [] in
    let sleep_interval :=
      if q =? ord "-" then sleep_interval + 50 else sleep_interval in
    let sleep_interval :=
      if q =? ord "+" then
        (if 0 <=? sleep_interval - 50 then sleep_interval - 50 else 0)
      else sleep_interval in
    if q =? KEY_RESIZE then (ev, Polled true sleep_interval)
    else if (q =? 10) || (q =? 32) then (ev, Polled true sleep_interval)
    else (ev, Polled false sleep_interval).

(** ** The generation step of [main] *)

(** Body of the inner [for] at [(x, y)]; [None] is the [IndexError] the
    [try] around it turns into [return]. *)
Definition visit (g : Grid) (x y : Z) (acc : Grid * bool)
  : option (Grid * bool) :=
  let '(next_grid, changed) := acc in
  sum_fields ← sum_adjecent_fields x y g;
  new_value ← decide_fate x y sum_fields g;
  old ← cell_at g x y;
  let changed := if String.eqb new_value old then changed else true in
  next_grid ← set_cell next_grid x y new_value;
  Some (next_grid, changed).

(** [for _ in row: ...; x += 1] *)
Fixpoint advance_row (g : Grid) (row : list cell) (x y : Z)
    (acc : Grid * bool) : option (Grid * bool) :=
  match row with
  | [] => Some acc
  | _ :: row' => acc' ← visit g x y acc; advance_row g row' (x + 1) y acc'
  end.

(** [for row in grid: ...; x = 0; y += 1] *)
Fixpoint advance_rows (g : Grid) (rows : list (list cell)) (y : Z)
    (acc : Grid * bool) : option (Grid * bool) :=
  match rows with
  | [] => Some acc
  | row :: rows' =>
      acc' ← advance_row g row 0 y acc; advance_rows g rows' (y + 1) acc'
  end.

Definition advance (g next_grid : Grid) (changed : bool)
  : option (Grid * bool) :=
  advance_rows g g 0 (next_grid, changed).

(** ** The main loop *)

(** The variables of [main] that live across passes of [while True],
    with the global [sleep_interval]. *)
Record state := State {
  grid : Grid;
  grandfather_grid : Grid;
  iterations : Z;
  iter_counter_active : bool;
  changed : bool;
  sleep_interval : Z
}.

(** What the terminal supplies during one pass: the window size read by
    [set_up_grid], whether [draw] gets through, the key [check_input]
    polls, the key a [pause()] inside [check_input] reads, and the key
    the [pause()] after a stability message reads. *)
Record input := Input {
  max_y : Z;
  max_x : Z;
  draw_ok : bool;
  key : Z;
  pause_key : Z;
  ack_key : Z
}.

(** How a pass ends: the loop goes on, [main] returns (leaving the global
    [sleep_interval] at the given value), [graceful_exit] ends the
    program, or an exception leaves [main]. The last one covers a failed
    [draw]: its [raise ResizeError] builds the exception without the
    [msg] argument the class requires, and the [TypeError] this causes is
    not caught by [except ResizeError]. *)
Inductive outcome :=
  | Continue (s : state)
  | Returned (sleep_interval : Z)
  | Exited
  | Raised.

Definition loop_body (seed_percentage : Z) (s : state) (i : input)
  : list event * outcome :=
  match set_up_grid seed_percentage
          (get_grid_dimensions (max_y i) (max_x i)) None with
  | None => ([], Raised)
  | Some fresh =>
  match advance (grid s) fresh (changed s) with
  | None => ([], Returned (sleep_interval s))
  | Some (next_grid, changed) =>
      let grandfather_grid :=
        if iterations s `mod` 2 =? 0 then grid s else grandfather_grid s in
      if negb (draw_ok i) then ([], Raised)
      else
        let ev1 := [Draw (draw next_grid);
                    PutMsg (Iterations (iterations s)) (y_padding - 4)] in
        match check_input (sleep_interval s) (key i) (pause_key i) with
        | (ev2, PollExit) => (ev1 ++ ev2, Exited)
        | (ev2, Polled true sleep_interval) =>
            (ev1 ++ ev2, Returned sleep_interval)
        | (ev2, Polled false sleep_interval) =>
            if negb changed then
              let msg := if check_for_extinction next_grid
                         then msg_extinct else msg_equilibrium in
              (ev1 ++ ev2 ++
                 [PutMsg (Text msg) (y_padding - 5); Pause (ack_key i)],
               if pause (ack_key i) then Exited
               else Returned sleep_interval)
            else
              let stable := bool_decide (next_grid = grandfather_grid) in
              let ev3 :=
                Compare next_grid grandfather_grid ::
                (if stable then [PutMsg (Text msg_stable) (y_padding - 5)]
                 else []) in
              let iter_counter_active :=
                if stable then false else iter_counter_active s in
              let iterations :=
                if iter_counter_active then iterations s + 1
                else iterations s in
              (ev1 ++ ev2 ++ ev3 ++ [Nap sleep_interval],
               Continue (State next_grid grandfather_grid iterations
                               iter_counter_active false sleep_interval))
        end
  end
  end.

(** The state in which [main] enters [while True] with grid [g]. *)
Definition initial_state (g : Grid) (sleep_interval : Z) : state :=
  State g [] 0 true false sleep_interval.

(** [main] up to the loop: seed a grid for the window and draw it. *)
Definition main_setup (seed_percentage max_y max_x : Z) (rnd : nat → Z)
    (draw_ok : bool) (sleep_interval : Z) : option state :=
  g ← set_up_grid seed_percentage (get_grid_dimensions max_y max_x)
        (Some rnd);
  if draw_ok then Some (initial_state g sleep_interval) else None.

(** The loop run over the inputs of successive passes. *)
Fixpoint main_loop (seed_percentage : Z) (s : state) (ins : list input)
  : list event * outcome :=
  match ins with
  | [] => ([], Continue s)
  | i :: ins' =>
      match loop_body seed_percentage s i with
      | (ev, Continue s') =>
          let '(ev', o) := main_loop seed_percentage s' ins' in (ev ++ ev', o)
      | r => r
      end
  end.

(** The states at the head of the loop, pass after pass, for as long as
    the loop goes on. *)
Fixpoint loop_states (seed_percentage : Z) (s : state) (ins : list input)
  : list state :=
  s :: match ins with
       | [] => []
       | i :: ins' =>
           match loop_body seed_percentage s i with
           | (_, Continue s') => loop_states seed_percentage s' ins'
           | _ => []
           end
       end.

(** The global [sleep_interval] after successive [check_input] calls,
    each given as the key polled and the key a pause would read; the
    calls stop when one exits the program. *)
Fixpoint poll_keys (sleep_interval : Z) (keys : list (Z * Z)) : Z :=
  match keys with
  | [] => sleep_interval
  | (q, c) :: keys' =>
      match check_input sleep_interval q c with
      | (_, Polled _ sleep_interval') => poll_keys sleep_interval' keys'
      | (_, PollExit) => sleep_interval
      end
  end.

(** ** Grids written out as pictures *)

(** A grid given as its rows, one character per cell. *)
Definition picture (rows : list string) : Grid :=
  (fun r => (fun c => String c EmptyString) <$> String.list_ascii_of_string r)
    <$> rows.

(** Patterns used to run the loop: a blinker in its two phases and a
    block on a 5 x 5 grid, a glider on a 6 x 6 grid. *)
Definition blinker_h : Grid :=
  picture ["-----"; "-----"; "-xxx-"; "-----"; "-----"].
Definition blinker_v : Grid :=
  picture ["-----"; "--x--"; "--x--"; "--x--"; "-----"].
Definition block : Grid :=
  picture ["-----"; "-xx--"; "-xx--"; "-----"; "-----"].
Definition glider : Grid :=
  picture ["-x----"; "--x---"; "xxx---"; "------"; "------"; "------"].

(** A pass in a window that fits a [(cols + 1)] x [(rows + 1)] grid, in
    which [draw] gets through and [check_input] polls key [q]; no key
    ([-1]) is waiting for a pause. *)
Definition pass_in (cols rows q : Z) : input :=
  Input (rows + y_padding + 3) (cols + x_padding + 2) true q (-1) (-1).

(** A random source to run the seeding on. *)
Definition sample_rnd (k : nat) : Z := Z.of_nat (k * k + k / 3).

(** A random source whose first three picks are the cells of
    [blinker_h]. *)
Definition blinker_rnd (k : nat) : Z :=
  match k with
  | 1%nat => 1
  | 5%nat => 3
  | _ => 2
  end.

(** The eight lookups of [sum_adjecent_fields] as a loop over a list of
    offsets. *)
Fixpoint count_offsets (offsets : list (Z * Z)) (x y : Z) (g : Grid)
    (sum_fields : Z) : option Z :=
  match offsets with
  | [] => Some sum_fields
  | (dx, dy) :: offsets' =>
      s ← count_if (x + dx) (y + dy) g sum_fields;
      count_offsets offsets' x y g s
  end.

(** A key polled by [check_input] (with [c] the key a pause would read)
    after which the pass goes on: not quit, re-seed or resize, and not
    a pause ended by quit. *)
Definition benign_key (q c : Z) : Prop :=
  q ≠ ord "q" ∧ q ≠ KEY_RESIZE ∧ q ≠ 10 ∧ q ≠ 32
  ∧ ¬ (q = ord "p" ∧ c = ord "q").

(** A pass in which the window gives the fresh grid [fresh], [draw] gets
    through and the key polled is benign. *)
Definition quiet (seed_percentage : Z) (fresh : Grid) (i : input) : Prop :=
  set_up_grid seed_percentage
    (get_grid_dimensions (max_y i) (max_x i)) None = Some fresh
  ∧ draw_ok i = true
  ∧ benign_key (key i) (pause_key i).

(** A grid of [rows] rows of [cols] cells each. *)
Definition dimensions (g : Grid) (cols rows : Z) : Prop :=
  len g = rows ∧ Forall (fun row => len row = cols) g.

(** Every cell is one of the two cell values. *)
Definition two_valued (g : Grid) : Prop :=
  Forall (Forall (fun c => c = dead_c ∨ c = alive_c)) g.

Definition all_dead (g : Grid) : Prop :=
  Forall (Forall (fun c => c = dead_c)) g.

(** The count the specification gives for the seeding passes is
    [round(p * rows * cols)]; [rounds_to num den k] says that [k] is an
    integer nearest to [num / den], whichever way a tie is broken. *)
Definition rounds_to (num den k : Z) : Prop :=
  Z.abs (den * k - num) * 2 ≤ den.

(** The colour pair [draw] picks for a cell value. *)
Definition color_of (v : cell) : Z := if String.eqb v alive_c then 2 else 1.

(** The eight offsets [sum_adjecent_fields] looks at, in its order. *)
Definition neighbour_offsets : list (Z * Z) :=
  [(-1, 0); (-1, -1); (-1, 1); (1, 0); (1, -1); (1, 1); (0, -1); (0, 1)].

(** Every neighbour lookup made for a cell of the [cols] x [rows] area
    resolves to a cell of that area. *)
Definition lookups_within (g : Grid) (cols rows : Z) : Prop :=
  ∀ x y dx dy,
    0 ≤ x < cols → 0 ≤ y < rows → (dx, dy) ∈ neighbour_offsets →
    ∃ x' y', wrap_border (x + dx) (y + dy) g = Some (x', y')
             ∧ 0 ≤ x' < cols ∧ 0 ≤ y' < rows.

(** [draw] writes only at the screen positions of the [cols] x [rows]
    area (the cell at [(x, y)] is written at line [y + 1], column
    [x + 1]). *)
Definition drawn_within (g : Grid) (cols rows : Z) : Prop :=
  ∀ c, c ∈ draw g → 1 ≤ at_x c ≤ cols ∧ 1 ≤ at_y c ≤ rows.

(** The value a pass stores in the new grid for the cell at [(x, y)]:
    [decide_fate] applied to the count [sum_adjecent_fields] returns. *)
Definition next_cell (g : Grid) (x y : Z) : option cell :=
  sum_fields ← sum_adjecent_fields x y g; decide_fate x y sum_fields g.

(** The cell at [(x, y)] gets a value unlike the one it has: the test
    [new_value != grid[y][x]] of the pass succeeds there. *)
Definition differs (g : Grid) (x y : Z) : Prop :=
  ∃ v old, next_cell g x y = Some v ∧ cell_at g x y = Some old ∧ v ≠ old.

(** Number of live cells of a grid. *)
Definition count_alive (g : Grid) : nat :=
  length (filter (fun c => c = alive_c) (concat g)).

(** The size test of [init_curses]: a window of [y] lines and [x]
    columns is refused when [y < 24 or x < 80]. *)
Definition terminal_too_small (y x : Z) : bool := (y <? 24) || (x <? 80).

(** First line of the message pad [main] creates with
    [stdscr.subpad(y_padding, max_x - x_padding - 1,
                   max_y - y_padding - 1, x_padding)]. *)
Definition messages_begin_y (max_y : Z) : Z := max_y - y_padding - 1.

(** * Properties *)

(** ** Python indexing *)

Section PyListFacts.
Context {A : Type}.
Implicit Types (l : list A) (i : Z) (k : nat).

Lemma py_index_lt i n k : py_index i n = Some k → (Z.of_nat k < n).
Proof.
  unfold py_index. intros H.
  destruct ((0 <=? i) && (i <? n)) eqn:E1.
  - apply andb_prop in E1 as [? ?]. inversion H. lia.
  - destruct ((i <? 0) && (- n <=? i)) eqn:E2; [|discriminate].
    apply andb_prop in E2 as [? ?]. inversion H. lia.
Qed.

Lemma py_index_nonneg i n :
  0 ≤ i < n → py_index i n = Some (Z.to_nat i).
Proof.
  intros [H0 H1]. unfold py_index.
  apply Z.leb_le in H0. apply Z.ltb_lt in H1. by rewrite H0, H1.
Qed.

Lemma getitem_nonneg l i :
  0 ≤ i < len l → getitem l i = l !! Z.to_nat i.
Proof. intros H. unfold getitem. by rewrite py_index_nonneg. Qed.

Lemma getitem_is_Some l i : 0 ≤ i < len l → is_Some (getitem l i).
Proof.
  intros H. rewrite getitem_nonneg by done.
  apply lookup_lt_is_Some. unfold len in H. lia.
Qed.

Lemma getitem_elem_of l i a : getitem l i = Some a → a ∈ l.
Proof.
  unfold getitem. intros H.
  destruct (py_index i (len l)) as [k|]; [|discriminate].
  simpl in H. apply list_elem_of_lookup. eauto.
Qed.

Lemma setitem_nonneg l i v :
  0 ≤ i < len l → setitem l i v = Some (<[Z.to_nat i := v]> l).
Proof. intros H. unfold setitem. by rewrite py_index_nonneg. Qed.

Lemma setitem_length l i v l' :
  setitem l i v = Some l' → length l' = length l.
Proof.
  unfold setitem. intros H.
  destruct (py_index i (len l)) as [k|]; [|discriminate].
  inversion H. apply length_insert.
Qed.

Lemma setitem_Forall (P : A → Prop) l i v l' :
  setitem l i v = Some l' → Forall P l → P v → Forall P l'.
Proof.
  unfold setitem. intros H Hl Hv.
  destruct (py_index i (len l)) as [k|]; [|discriminate].
  inversion H. by apply Forall_insert.
Qed.
End PyListFacts.

(** ** The rule *)

(** C1. For every grid, coordinate and neighbour count (in particular
    every count [sum_adjecent_fields] returns), [decide_fate] gives the
    classic rule applied to the liveness of the cell at the coordinate: a
    live cell stays alive exactly with 2 or 3 neighbours, a dead cell
    becomes alive exactly with 3, anything else is dead; and it raises
    exactly when the lookup of the cell does. *)
Theorem decide_fate_classic_rule (g : Grid) (x y n : Z) :
  decide_fate x y n g =
    (alive ← get_coordinate_value x y g; Some (classic_rule alive n)).
Proof.
  unfold decide_fate, classic_rule.
  destruct (get_coordinate_value x y g) as [[|]|]; simpl; [| |done].
  - destruct (Z.eqb_spec (n + 1) 3), (Z.eqb_spec (n + 1) 4),
      (Z.eqb_spec n 2), (Z.eqb_spec n 3); simpl; (done || lia).
  - destruct (Z.eqb_spec n 3), (Z.eqb_spec n 4); simpl; (done || lia).
Qed.

(** ** Wrapping *)

Lemma dimensions_first_row (g : Grid) cols rows :
  dimensions g cols rows → 0 < rows →
  ∃ row0, getitem g 0 = Some row0 ∧ len row0 = cols.
Proof.
  intros [Hlen Hall] Hrows.
  destruct (getitem_is_Some g 0) as [row0 Hrow0]; [lia|].
  exists row0. split; [done|].
  apply getitem_elem_of in Hrow0.
  by apply (proj1 (Forall_forall _ _) Hall).
Qed.

Lemma wrap_border_one_step (g : Grid) cols rows x y :
  dimensions g cols rows → 0 < cols → 0 < rows →
  -1 ≤ x ≤ cols → -1 ≤ y ≤ rows →
  ∃ x' y', wrap_border x y g = Some (x', y')
           ∧ 0 ≤ x' < cols ∧ 0 ≤ y' < rows.
Proof.
  intros Hd Hc Hr Hx Hy.
  destruct (dimensions_first_row g cols rows Hd Hr) as (row0 & H0 & Hl).
  destruct Hd as [Hlen _].
  unfold wrap_border. rewrite H0. simpl. rewrite Hl, Hlen.
  eexists _, _. split; [reflexivity|].
  destruct (Z.leb_spec cols x), (Z.ltb_spec x 0),
    (Z.leb_spec rows y), (Z.ltb_spec y 0); lia.
Qed.

(** C4. On a grid of [cols] columns and [rows] rows (both positive),
    [wrap_border] takes every coordinate at most one step outside the
    grid into [0, cols) x [0, rows); on a 10x10 grid it takes (-1, 0) to
    (9, 0) and (10, 0) to (0, 0). *)
Theorem wrap_border_lands_in_grid (g : Grid) (cols rows : Z) :
  dimensions g cols rows → 0 < cols → 0 < rows →
  (∀ x y, -1 ≤ x ≤ cols → -1 ≤ y ≤ rows →
     ∃ x' y', wrap_border x y g = Some (x', y')
              ∧ 0 ≤ x' < cols ∧ 0 ≤ y' < rows)
  ∧ (cols = 10 → rows = 10 →
     wrap_border (-1) 0 g = Some (9, 0)
     ∧ wrap_border 10 0 g = Some (0, 0)).
Proof.
  intros Hd Hc Hr. split.
  - intros x y. by apply wrap_border_one_step.
  - intros -> ->.
    destruct (dimensions_first_row g 10 10 Hd Hr) as (row0 & H0 & Hl).
    destruct Hd as [Hlen _].
    unfold wrap_border. rewrite H0. simpl. by rewrite Hl, Hlen.
Qed.

Lemma wrap_border_lands_in_grid_witness :
  wrap_border (-1) 0 (replicate 10 (replicate 10 dead_c)) = Some (9, 0)
  ∧ wrap_border 10 0 (replicate 10 (replicate 10 dead_c)) = Some (0, 0).
Proof.
  refine (proj2 (wrap_border_lands_in_grid
                   (replicate 10 (replicate 10 dead_c)) 10 10 _ _ _) _ _);
    try reflexivity.
  split; [reflexivity|]. repeat constructor.
Defined.

Lemma dimensions_cell_at (g : Grid) cols rows x y :
  dimensions g cols rows → 0 ≤ x < cols → 0 ≤ y < rows →
  is_Some (cell_at g x y).
Proof.
  intros [Hlen Hall] Hx Hy. unfold cell_at.
  destruct (getitem_is_Some g y) as [row Hrow]; [lia|].
  rewrite Hrow. simpl. apply getitem_is_Some.
  apply getitem_elem_of in Hrow.
  rewrite (proj1 (Forall_forall _ _) Hall row Hrow). lia.
Qed.

(** ** Neighbour counts *)

Lemma get_coordinate_value_defined (g : Grid) cols rows x y :
  dimensions g cols rows → 0 < cols → 0 < rows →
  -1 ≤ x ≤ cols → -1 ≤ y ≤ rows →
  is_Some (get_coordinate_value x y g).
Proof.
  intros Hd Hc Hr Hx Hy.
  destruct (wrap_border_one_step g cols rows x y Hd Hc Hr Hx Hy)
    as (x' & y' & Hw & Hx' & Hy').
  unfold get_coordinate_value. rewrite Hw. simpl.
  destruct (dimensions_cell_at g cols rows x' y' Hd Hx' Hy') as [c Hcell].
  rewrite Hcell. simpl. eauto.
Qed.

Lemma count_if_step x y (g : Grid) s s' :
  count_if x y g s = Some s' → s ≤ s' ≤ s + 1.
Proof.
  unfold count_if.
  destruct (get_coordinate_value x y g) as [[|]|]; simpl;
    intros H; simplify_eq; lia.
Qed.

(** The count is between 0 and 8. *)
Lemma sum_adjecent_fields_range x y (g : Grid) n :
  sum_adjecent_fields x y g = Some n → 0 ≤ n ≤ 8.
Proof.
  unfold sum_adjecent_fields. intros H.
  repeat match type of H with
         | (?m ≫= _) = Some _ =>
             let s := fresh "s" in
             let E := fresh "E" in
             destruct m as [s|] eqn:E; [|discriminate];
             apply count_if_step in E; simpl in H
         end.
  apply count_if_step in H. lia.
Qed.

(** On a grid with at least one cell the count and the fate of every
    cell of the grid are defined. *)
Lemma neighbourhood_defined (g : Grid) cols rows x y :
  dimensions g cols rows → 0 ≤ x < cols → 0 ≤ y < rows →
  ∃ n v, sum_adjecent_fields x y g = Some n
         ∧ decide_fate x y n g = Some v.
Proof.
  intros Hd Hx Hy.
  assert (∀ x' y' s, -1 ≤ x' ≤ cols → -1 ≤ y' ≤ rows →
            is_Some (count_if x' y' g s)) as Hcount.
  { intros x' y' s Hx' Hy'. unfold count_if.
    destruct (get_coordinate_value_defined g cols rows x' y' Hd)
      as [b Hb]; [lia..|].
    rewrite Hb. simpl. eauto. }
  assert (is_Some (sum_adjecent_fields x y g)) as [n Hn].
  { unfold sum_adjecent_fields.
    repeat match goal with
           | |- is_Some (count_if ?a ?b g ?s ≫= _) =>
               let E := fresh "E" in
               destruct (Hcount a b s) as [? E]; [lia..|];
               rewrite E; simpl
           end.
    apply Hcount; lia. }
  exists n. unfold decide_fate.
  destruct (get_coordinate_value_defined g cols rows x y Hd) as [b Hb];
    [lia..|].
  rewrite Hb. simpl.
  destruct ((if b then n + 1 else n) =? 3), ((if b then n + 1 else n) =? 4);
    eauto.
Qed.

(** ** The step interval *)

Lemma check_input_interval (si q c : Z) ev r si' :
  check_input si q c = (ev, Polled r si') →
  si' = (if q =? ord "+" then (if 0 <=? si - 50 then si - 50 else 0)
         else if q =? ord "-" then si + 50 else si).
Proof.
  unfold check_input. intros H.
  destruct (q =? ord "q"); [discriminate|].
  destruct ((q =? ord "p") && pause c); [discriminate|].
  destruct (Z.eqb_spec q (ord "+")) as [->|]; simpl in H.
  - by inversion H.
  - destruct (q =? ord "-"), (q =? KEY_RESIZE), ((q =? 10) || (q =? 32));
      by inversion H.
Qed.

Lemma check_input_nonneg (si q c : Z) ev r si' :
  0 ≤ si → check_input si q c = (ev, Polled r si') → 0 ≤ si'.
Proof.
  intros Hsi H. apply check_input_interval in H. subst si'.
  destruct (q =? ord "+"), (Z.leb_spec 0 (si - 50)), (q =? ord "-"); lia.
Qed.

Lemma loop_body_interval sp s i ev s' :
  loop_body sp s i = (ev, Continue s') →
  ∃ ev' r, check_input (sleep_interval s) (key i) (pause_key i)
           = (ev', Polled r (sleep_interval s')).
Proof.
  unfold loop_body. intros H.
  destruct (set_up_grid _ _ _); [|discriminate].
  destruct (advance _ _ _) as [[ng ch]|]; [|discriminate].
  destruct (negb (draw_ok i)); [discriminate|].
  destruct (check_input _ _ _) as [ev2 [|[|] si]] eqn:E; try discriminate.
  destruct (negb ch).
  - destruct (pause (ack_key i)); discriminate.
  - inversion H. simpl. eauto.
Qed.

(** C9. The step interval stays non-negative under every input command:
    a speed-up takes it down by 50 but not below 0, a speed-down takes it
    up by 50, every other key leaves it alone; so it is non-negative
    after any sequence of polled keys and in every state of a session. *)
Theorem sleep_interval_nonneg (si : Z) :
  0 ≤ si →
  (∀ q c ev r si',
     check_input si q c = (ev, Polled r si') →
     0 ≤ si'
     ∧ (q = ord "+" → si' = Z.max 0 (si - 50))
     ∧ (q = ord "-" → si' = si + 50)
     ∧ (q ≠ ord "+" → q ≠ ord "-" → si' = si))
  ∧ (∀ keys, 0 ≤ poll_keys si keys)
  ∧ (∀ sp s ins s',
       sleep_interval s = si → s' ∈ loop_states sp s ins →
       0 ≤ sleep_interval s').
Proof.
  intros Hsi. split; [|split].
  - intros q c ev r si' H. split; [by eapply check_input_nonneg|].
    apply check_input_interval in H. subst si'.
    repeat split.
    + intros ->. simpl. destruct (Z.leb_spec 0 (si - 50)); lia.
    + intros ->. done.
    + intros H1 H2.
      destruct (Z.eqb_spec q (ord "+")), (Z.eqb_spec q (ord "-")); done.
  - intros keys. revert si Hsi.
    induction keys as [|[q c] keys IH]; intros si Hsi; simpl; [done|].
    destruct (check_input si q c) as [ev [|r si']] eqn:E; [done|].
    apply IH. by eapply check_input_nonneg.
  - intros sp s ins. revert s si Hsi.
    induction ins as [|i ins IH]; intros s si Hsi s' Hs Hin; simpl in Hin.
    + apply list_elem_of_singleton in Hin. subst s'. lia.
    + apply elem_of_cons in Hin as [->|Hin]; [lia|].
      destruct (loop_body sp s i) as [ev [s1| | |]] eqn:E;
        try by apply elem_of_nil in Hin.
      apply loop_body_interval in E as (ev' & r & E).
      eapply IH; [|reflexivity|exact Hin].
      eapply check_input_nonneg; [|exact E]. lia.
Qed.

Lemma sleep_interval_nonneg_witness :
  0 ≤ poll_keys 10 [(ord "+", -1); (ord "+", -1); (ord "-", -1)].
Proof.
  refine (proj1 (proj2 (sleep_interval_nonneg 10 _)) _). lia.
Defined.

(** ** Cell values *)

Section CellInvariant.
Variable P : cell → Prop.

Lemma set_cell_Forall (g g' : Grid) x y v :
  set_cell g x y v = Some g' →
  Forall (Forall P) g → P v → Forall (Forall P) g'.
Proof.
  unfold set_cell. intros H Hg Hv.
  destruct (getitem g y) as [row|] eqn:Er; [|discriminate]. simpl in H.
  destruct (setitem row x v) as [row'|] eqn:Es; [|discriminate].
  simpl in H. eapply setitem_Forall; [exact H|exact Hg|].
  eapply setitem_Forall; [exact Es| |exact Hv].
  apply getitem_elem_of in Er.
  by apply (proj1 (Forall_forall _ _) Hg).
Qed.

Lemma seed_loop_Forall n rnd rows cols j (g g' : Grid) :
  seed_loop n rnd rows cols j g = Some g' →
  P alive_c → Forall (Forall P) g → Forall (Forall P) g'.
Proof.
  revert j g. induction n as [|n IH]; intros j g H Ha Hg; simpl in H.
  - by simplify_eq.
  - destruct (seed_trial rnd rows cols j) as [[x y]|]; [|discriminate].
    simpl in H.
    destruct (set_cell g x y alive_c) as [g1|] eqn:E; [|discriminate].
    simpl in H. eapply IH; [exact H|exact Ha|].
    by eapply set_cell_Forall.
Qed.
End CellInvariant.

Lemma fresh_grid_all_dead (n m : nat) :
  all_dead (replicate n (replicate m dead_c)).
Proof. apply Forall_replicate, Forall_replicate. reflexivity. Qed.

Lemma all_dead_two_valued (g : Grid) : all_dead g → two_valued g.
Proof.
  unfold all_dead, two_valued. intros H.
  eapply Forall_impl; [exact H|]. intros row Hrow.
  eapply Forall_impl; [exact Hrow|]. simpl. auto.
Qed.

Lemma xrange_c_long z : c_long z → xrange z = Some (Z.to_nat z).
Proof.
  intros [Hlo Hhi]. unfold xrange.
  apply Z.leb_le in Hlo, Hhi. by rewrite Hlo, Hhi.
Qed.

Lemma xrange_Some z n : xrange z = Some n → n = Z.to_nat z.
Proof.
  unfold xrange. destruct (_ && _); intros H; by simplify_eq.
Qed.

(** What [set_up_grid] has done when it returns: the seed count was
    computed, the grid was allocated all dead with [rows + 1] rows of
    [cols + 1] cells, and for a seeded grid the loop over the seeds was
    entered and ran through. *)
Lemma set_up_grid_inv sp cols rows seed (g : Grid) :
  set_up_grid sp (cols, rows) seed = Some g →
  ∃ seeds,
    seed_count sp rows cols = Some seeds
    ∧ match seed with
      | Some rnd =>
          ∃ passes,
            xrange seeds = Some passes
            ∧ seed_loop passes rnd rows cols 0%nat
                (replicate (Z.to_nat (rows + 1))
                   (replicate (Z.to_nat (cols + 1)) dead_c)) = Some g
      | None =>
          g = replicate (Z.to_nat (rows + 1))
                (replicate (Z.to_nat (cols + 1)) dead_c)
      end.
Proof.
  unfold set_up_grid. intros H.
  destruct (seed_count sp rows cols) as [seeds|]; [|discriminate].
  exists seeds. split; [done|]. simpl in H.
  destruct (xrange (rows + 1)) as [nrows|] eqn:Erows; [|discriminate].
  apply xrange_Some in Erows. simpl in H.
  assert (∃ fresh,
            fresh = replicate (Z.to_nat (rows + 1))
                      (replicate (Z.to_nat (cols + 1)) dead_c)
            ∧ match seed with
              | Some rnd =>
                  passes ← xrange seeds;
                  seed_loop passes rnd rows cols 0%nat fresh
              | None => Some fresh
              end = Some g) as (fresh & Hfresh & Hg).
  { destruct nrows as [|k].
    - exists []. split; [by rewrite <- Erows|exact H].
    - destruct (xrange (cols + 1)) as [ncols|] eqn:Ecols; [|discriminate].
      apply xrange_Some in Ecols. simpl in H.
      exists (replicate (S k) (replicate ncols dead_c)).
      split; [by rewrite <- Erows, <- Ecols|exact H]. }
  subst fresh. destruct seed as [rnd|].
  - destruct (xrange seeds) as [passes|]; [|discriminate]. eauto.
  - by simplify_eq.
Qed.

(** [set_up_grid] for a window whose sizes are C longs, once the seed
    count is computed. *)
Lemma set_up_grid_eq sp cols rows seed seeds :
  seed_count sp rows cols = Some seeds →
  c_long (rows + 1) → c_long (cols + 1) →
  set_up_grid sp (cols, rows) seed =
    match seed with
    | Some rnd =>
        passes ← xrange seeds;
        seed_loop passes rnd rows cols 0%nat
          (replicate (Z.to_nat (rows + 1))
             (replicate (Z.to_nat (cols + 1)) dead_c))
    | None =>
        Some (replicate (Z.to_nat (rows + 1))
                (replicate (Z.to_nat (cols + 1)) dead_c))
    end.
Proof.
  intros Hn Hrows Hcols. unfold set_up_grid. rewrite Hn. simpl.
  rewrite (xrange_c_long _ Hrows). simpl.
  destruct (Z.to_nat (rows + 1)) as [|k] eqn:Ek; simpl; [done|].
  rewrite (xrange_c_long _ Hcols). done.
Qed.

Lemma set_up_grid_two_valued sp dims seed g :
  set_up_grid sp dims seed = Some g → two_valued g.
Proof.
  destruct dims as [cols rows]. intros H.
  apply set_up_grid_inv in H as (seeds & _ & H). destruct seed as [rnd|].
  - destruct H as (passes & _ & H).
    eapply seed_loop_Forall; [exact H|by right|].
    apply all_dead_two_valued, fresh_grid_all_dead.
  - subst g. apply all_dead_two_valued, fresh_grid_all_dead.
Qed.

Lemma decide_fate_two_valued x y n g c :
  decide_fate x y n g = Some c → c = dead_c ∨ c = alive_c.
Proof.
  unfold decide_fate.
  destruct (get_coordinate_value x y g) as [[|]|]; simpl; [| |done].
  - destruct (n + 1 =? 3), (n + 1 =? 4); intros [= <-]; auto.
  - destruct (n =? 3), (n =? 4); intros [= <-]; auto.
Qed.

Lemma visit_two_valued g x y ng ch ng' ch' :
  visit g x y (ng, ch) = Some (ng', ch') →
  two_valued ng → two_valued ng'.
Proof.
  unfold visit. intros H Hng.
  destruct (sum_adjecent_fields x y g) as [n|]; [|discriminate].
  simpl in H.
  destruct (decide_fate x y n g) as [v|] eqn:Ev; [|discriminate].
  simpl in H. destruct (cell_at g x y) as [old|]; [|discriminate].
  simpl in H.
  destruct (set_cell ng x y v) as [ng1|] eqn:Es; [|discriminate].
  simpl in H. inversion H; subst.
  eapply set_cell_Forall; [exact Es|exact Hng|].
  by eapply decide_fate_two_valued.
Qed.

Lemma advance_row_two_valued g row x y acc acc' :
  advance_row g row x y acc = Some acc' →
  two_valued acc.1 → two_valued acc'.1.
Proof.
  revert x acc. induction row as [|c row IH]; intros x acc H Hacc;
    simpl in H.
  - by simplify_eq.
  - destruct (visit g x y acc) as [[ng1 ch1]|] eqn:Ev; [|discriminate].
    simpl in H. destruct acc as [ng ch].
    apply (IH _ _ H). simpl. by eapply visit_two_valued.
Qed.

Lemma advance_rows_two_valued g rows y acc acc' :
  advance_rows g rows y acc = Some acc' →
  two_valued acc.1 → two_valued acc'.1.
Proof.
  revert y acc. induction rows as [|row rows IH]; intros y acc H Hacc;
    simpl in H.
  - by simplify_eq.
  - destruct (advance_row g row 0 y acc) as [acc1|] eqn:Er; [|discriminate].
    simpl in H. apply (IH _ _ H). by eapply advance_row_two_valued.
Qed.

(** The pieces of a pass that goes on to the next one. *)
Lemma loop_body_Continue sp s i ev s' :
  loop_body sp s i = (ev, Continue s') →
  ∃ fresh ch,
    set_up_grid sp (get_grid_dimensions (max_y i) (max_x i)) None
      = Some fresh
    ∧ advance (grid s) fresh (changed s) = Some (grid s', ch)
    ∧ ch = true
    ∧ draw_ok i = true
    ∧ grandfather_grid s' =
        (if iterations s `mod` 2 =? 0 then grid s else grandfather_grid s)
    ∧ iter_counter_active s' =
        (if bool_decide (grid s' = grandfather_grid s') then false
         else iter_counter_active s)
    ∧ iterations s' =
        (if iter_counter_active s' then iterations s + 1 else iterations s)
    ∧ changed s' = false.
Proof.
  unfold loop_body. intros H.
  destruct (set_up_grid _ _ _) as [fresh|] eqn:Ef; [|discriminate].
  destruct (advance _ _ _) as [[ng ch]|] eqn:Ea; [|discriminate].
  destruct (draw_ok i); simpl in H; [|discriminate].
  destruct (check_input _ _ _) as [ev2 [|[|] si]]; try discriminate.
  destruct ch; simpl in H.
  - inversion H. simpl. exists fresh, true. repeat split; done.
  - destruct (pause (ack_key i)); discriminate.
Qed.

Lemma loop_body_two_valued sp s i ev s' :
  loop_body sp s i = (ev, Continue s') →
  two_valued (grid s) → two_valued (grandfather_grid s) →
  two_valued (grid s') ∧ two_valued (grandfather_grid s').
Proof.
  intros H Hg Hgf.
  apply loop_body_Continue in H
    as (fresh & ch & Hf & Ha & _ & _ & Hgf' & _).
  split.
  - apply (advance_rows_two_valued _ _ _ _ _ Ha). simpl.
    by eapply set_up_grid_two_valued.
  - rewrite Hgf'. by destruct (_ =? _).
Qed.

(** C10. Every cell of every grid the program builds is [dead_c] or
    [alive_c]: the grid [set_up_grid] returns, seeded or not, is
    two-valued; [decide_fate] returns one of the two values; and in a
    session started by [main] the current grid and the grandfather grid
    are two-valued at every pass of the loop. *)
Theorem cells_two_valued :
  (∀ sp dims seed g, set_up_grid sp dims seed = Some g → two_valued g)
  ∧ (∀ x y n g c, decide_fate x y n g = Some c → c = dead_c ∨ c = alive_c)
  ∧ (∀ sp my mx rnd ok si s0 ins s,
       main_setup sp my mx rnd ok si = Some s0 →
       s ∈ loop_states sp s0 ins →
       two_valued (grid s) ∧ two_valued (grandfather_grid s)).
Proof.
  split; [exact set_up_grid_two_valued|].
  split; [exact decide_fate_two_valued|].
  intros sp my mx rnd ok si s0 ins s H0 Hin.
  assert (two_valued (grid s0) ∧ two_valued (grandfather_grid s0))
    as [Hg Hgf].
  { unfold main_setup in H0.
    destruct (set_up_grid _ _ _) as [g|] eqn:E; [|discriminate].
    simpl in H0. destruct ok; [|discriminate]. inversion H0. simpl.
    split; [by eapply set_up_grid_two_valued|constructor]. }
  clear H0. revert s0 Hg Hgf Hin.
  induction ins as [|i ins IH]; intros s0 Hg Hgf Hin; simpl in Hin.
  - apply list_elem_of_singleton in Hin. by subst.
  - apply elem_of_cons in Hin as [->|Hin]; [done|].
    destruct (loop_body sp s0 i) as [ev [s1| | |]] eqn:E;
      try by apply elem_of_nil in Hin.
    destruct (loop_body_two_valued _ _ _ _ _ E Hg Hgf).
    by eapply IH.
Qed.

Lemma cells_two_valued_witness :
  ∃ g, set_up_grid 50 (3, 2) (Some sample_rnd) = Some g
       ∧ two_valued g.
Proof.
  eexists. split; [vm_compute; reflexivity|].
  apply (proj1 cells_two_valued 50 (3, 2) (Some sample_rnd)).
  vm_compute. reflexivity.
Defined.

(** ** Oscillation *)

Lemma check_input_events si q c :
  ∀ e, e ∈ (check_input si q c).1 → e = Pause c.
Proof.
  intros e. unfold check_input.
  destruct (q =? ord "q"); simpl; [by intros ?%elem_of_nil|].
  destruct ((q =? ord "p") && pause c); simpl;
    [by intros ?%list_elem_of_singleton|].
  destruct (q =? ord "p"), (q =? KEY_RESIZE), ((q =? 10) || (q =? 32));
    simpl; by (intros ?%list_elem_of_singleton || intros ?%elem_of_nil).
Qed.

(** Splits a membership in the event list of a pass into its cases. *)
Ltac event_cases H :=
  repeat (rewrite ?elem_of_app, ?elem_of_cons, ?elem_of_nil in H);
  repeat match type of H with
         | _ ∨ _ => destruct H as [H|H]
         | False => destruct H
         end.

(** The comparison is made only in a pass that goes on, and its operands
    are the new grid and the grandfather grid of the next state. *)
Lemma loop_body_compare sp s i ng gf :
  Compare ng gf ∈ (loop_body sp s i).1 →
  ∃ s', (loop_body sp s i).2 = Continue s'
        ∧ grid s' = ng ∧ grandfather_grid s' = gf.
Proof.
  unfold loop_body.
  destruct (set_up_grid _ _ _) as [fresh|]; simpl;
    [|by intros ?%elem_of_nil].
  destruct (advance _ _ _) as [[ng1 ch]|]; simpl;
    [|by intros ?%elem_of_nil].
  destruct (draw_ok i); simpl; [|by intros ?%elem_of_nil].
  pose proof (check_input_events (sleep_interval s) (key i) (pause_key i))
    as Hev.
  destruct (check_input _ _ _) as [ev2 [|[|] si]]; simpl in *.
  - intros H. event_cases H; try discriminate.
    by apply Hev in H.
  - intros H. event_cases H; try discriminate.
    by apply Hev in H.
  - destruct ch; simpl.
    + intros H. eexists. split; [reflexivity|]. simpl.
      event_cases H; try discriminate.
      * by apply Hev in H.
      * by inversion H.
      * destruct (bool_decide _); event_cases H; discriminate.
    + intros H. event_cases H; try discriminate.
      by apply Hev in H.
Qed.

Lemma loop_body_frozen sp s i ev s' :
  loop_body sp s i = (ev, Continue s') →
  iter_counter_active s = false →
  iter_counter_active s' = false ∧ iterations s' = iterations s.
Proof.
  intros H Hact.
  apply loop_body_Continue in H
    as (_ & _ & _ & _ & _ & _ & _ & Ha & Hi & _).
  rewrite Hact in Ha. assert (iter_counter_active s' = false) as Ha'.
  { rewrite Ha. by destruct (bool_decide _). }
  split; [done|]. by rewrite Hi, Ha'.
Qed.

(** C8. When the comparison of a pass finds the new grid equal to the
    grandfather grid, the pass goes on to the next one (the loop does not
    end), the stability message is put up, the counter flag is cleared
    and the counter keeps its value; and from a state whose flag is
    cleared, every later state of the session has the flag cleared and
    the same counter value. *)
Theorem oscillation_freezes_counter :
  (∀ sp s i ng gf,
     Compare ng gf ∈ (loop_body sp s i).1 → ng = gf →
     ∃ s', (loop_body sp s i).2 = Continue s'
           ∧ iter_counter_active s' = false
           ∧ iterations s' = iterations s
           ∧ PutMsg (Text msg_stable) (y_padding - 5)
               ∈ (loop_body sp s i).1)
  ∧ (∀ sp s ins s',
       iter_counter_active s = false → s' ∈ loop_states sp s ins →
       iter_counter_active s' = false ∧ iterations s' = iterations s).
Proof.
  split.
  - intros sp s i ng gf Hin Heq.
    destruct (loop_body_compare _ _ _ _ _ Hin) as (s' & Ho & Hg & Hgf).
    exists s'. split; [done|].
    destruct (loop_body sp s i) as [ev o] eqn:E. simpl in *. subst o.
    pose proof E as E'.
    apply loop_body_Continue in E as (_ & _ & _ & _ & _ & _ & _ & Ha & Hi & _).
    assert (iter_counter_active s' = false) as Ha'.
    { rewrite Ha, Hg, Hgf. by rewrite bool_decide_eq_true_2. }
    split; [done|]. split; [by rewrite Hi, Ha'|].
    clear Hin. unfold loop_body in E'.
    destruct (set_up_grid _ _ _) as [fresh|]; [|discriminate].
    destruct (advance _ _ _) as [[ng1 ch]|]; [|discriminate].
    destruct (draw_ok i); simpl in E'; [|discriminate].
    destruct (check_input _ _ _) as [ev2 [|[|] si]]; try discriminate.
    destruct ch; simpl in E'; [|destruct (pause _); discriminate].
    inversion E' as [[Hev Hs']]. rewrite <- Hs' in Hg, Hgf. simpl in Hg, Hgf.
    subst ng1. rewrite Hgf, bool_decide_eq_true_2 by done.
    do 2 apply list_elem_of_further. apply elem_of_app. right.
    apply list_elem_of_further, list_elem_of_here.
  - intros sp s ins. revert s.
    induction ins as [|i ins IH]; intros s s' Hact Hin; simpl in Hin.
    + apply list_elem_of_singleton in Hin. by subst.
    + apply elem_of_cons in Hin as [->|Hin]; [done|].
      destruct (loop_body sp s i) as [ev [s1| | |]] eqn:E;
        try by apply elem_of_nil in Hin.
      destruct (loop_body_frozen _ _ _ _ _ E Hact) as [Ha1 Hi1].
      destruct (IH _ _ Ha1 Hin) as [? ?]. split; [done|congruence].
Qed.

Lemma oscillation_freezes_counter_witness :
  ∃ s', (loop_body 10 (State blinker_v blinker_h 1 true false 10)
           (pass_in 4 4 (-1))).2 = Continue s'
        ∧ iter_counter_active s' = false
        ∧ iterations s' = 1
        ∧ PutMsg (Text msg_stable) (y_padding - 5)
            ∈ (loop_body 10 (State blinker_v blinker_h 1 true false 10)
                 (pass_in 4 4 (-1))).1.
Proof.
  apply (proj1 oscillation_freezes_counter 10
           (State blinker_v blinker_h 1 true false 10) (pass_in 4 4 (-1))
           blinker_h blinker_h); [|reflexivity].
  vm_compute. do 2 apply list_elem_of_further. apply list_elem_of_here.
Defined.

(** ** The allocated grid *)

Lemma set_cell_dimensions (g g' : Grid) x y v cols rows :
  set_cell g x y v = Some g' → dimensions g cols rows →
  dimensions g' cols rows.
Proof.
  unfold set_cell, dimensions, len. intros H [Hlen Hall].
  destruct (getitem g y) as [row|] eqn:Er; [|discriminate]. simpl in H.
  destruct (setitem row x v) as [row'|] eqn:Es; [|discriminate].
  simpl in H. split.
  - by rewrite (setitem_length _ _ _ _ H).
  - eapply setitem_Forall; [exact H|exact Hall|]. simpl.
    rewrite (setitem_length _ _ _ _ Es).
    apply getitem_elem_of in Er.
    by apply (proj1 (Forall_forall _ _) Hall).
Qed.

Lemma seed_loop_dimensions n rnd rows cols j (g g' : Grid) c r :
  seed_loop n rnd rows cols j g = Some g' →
  dimensions g c r → dimensions g' c r.
Proof.
  revert j g. induction n as [|n IH]; intros j g H Hg; simpl in H.
  - by simplify_eq.
  - destruct (seed_trial rnd rows cols j) as [[x y]|]; [|discriminate].
    simpl in H.
    destruct (set_cell g x y alive_c) as [g1|] eqn:E; [|discriminate].
    simpl in H. eapply IH; [exact H|]. by eapply set_cell_dimensions.
Qed.

Lemma fresh_grid_dimensions (cols rows : Z) :
  dimensions (replicate (Z.to_nat (rows + 1))
                (replicate (Z.to_nat (cols + 1)) dead_c))
    (Z.max 0 (cols + 1)) (Z.max 0 (rows + 1)).
Proof.
  unfold dimensions, len. split.
  - rewrite length_replicate. lia.
  - apply Forall_replicate. rewrite length_replicate. lia.
Qed.

Lemma set_up_grid_dimensions sp cols rows seed g :
  set_up_grid sp (cols, rows) seed = Some g →
  dimensions g (Z.max 0 (cols + 1)) (Z.max 0 (rows + 1)).
Proof.
  intros H. apply set_up_grid_inv in H as (seeds & _ & H).
  destruct seed as [rnd|].
  - destruct H as (passes & _ & H).
    eapply seed_loop_dimensions; [exact H|]. apply fresh_grid_dimensions.
  - subst g. apply fresh_grid_dimensions.
Qed.

(** ** Drawing *)

Lemma elem_of_draw_row row y_cnt x_cnt c :
  c ∈ draw_row row y_cnt x_cnt ↔
  ∃ (i : nat) v, row !! i = Some v
                 ∧ c = Addstr y_cnt (x_cnt + Z.of_nat i) v (color_of v).
Proof.
  revert x_cnt. induction row as [|v row IH]; intros x_cnt; simpl.
  - rewrite elem_of_nil. split; [done|].
    intros (i & v & Hi & _). by rewrite lookup_nil in Hi.
  - rewrite elem_of_cons, IH. split.
    + intros [->|(i & w & Hi & ->)].
      * exists 0%nat, v. split; [done|]. f_equal. lia.
      * exists (S i), w. split; [done|]. f_equal. lia.
    + intros ([|i] & w & Hi & ->); simpl in Hi.
      * left. simplify_eq. f_equal. lia.
      * right. exists i, w. split; [done|]. f_equal. lia.
Qed.

Lemma elem_of_draw_rows (g : Grid) y_cnt c :
  c ∈ draw_rows g y_cnt ↔
  ∃ (j i : nat) row v,
    g !! j = Some row ∧ row !! i = Some v
    ∧ c = Addstr (y_cnt + Z.of_nat j) (1 + Z.of_nat i) v (color_of v).
Proof.
  revert y_cnt. induction g as [|row g IH]; intros y_cnt; simpl.
  - rewrite elem_of_nil. split; [done|].
    intros (j & i & r & v & Hj & _). by destruct j.
  - rewrite elem_of_app, elem_of_draw_row, IH. split.
    + intros [(i & v & Hi & ->)|(j & i & r & v & Hj & Hi & ->)].
      * exists 0%nat, i, row, v. repeat split; [done|]. f_equal. lia.
      * exists (S j), i, r, v. repeat split; [done..|]. f_equal. lia.
    + intros ([|j] & i & r & v & Hj & Hi & ->); simpl in Hj.
      * left. simplify_eq. exists i, v. split; [done|]. f_equal. lia.
      * right. exists j, i, r, v. repeat split; [done..|]. f_equal. lia.
Qed.

Lemma getitem_lookup {A} (l : list A) (i : Z) :
  0 ≤ i → getitem l i = l !! Z.to_nat i.
Proof.
  intros Hi. destruct (Z.lt_ge_cases i (len l)).
  - by apply getitem_nonneg.
  - unfold getitem, py_index.
    destruct (Z.ltb_spec i (len l)), (Z.ltb_spec i 0); try lia.
    rewrite !andb_false_r. simpl. symmetry. apply lookup_ge_None.
    unfold len in *. lia.
Qed.

Lemma cell_at_nonneg (g : Grid) x y v :
  0 ≤ x → 0 ≤ y →
  cell_at g x y = Some v ↔
  ∃ row, g !! Z.to_nat y = Some row ∧ row !! Z.to_nat x = Some v.
Proof.
  intros Hx Hy. unfold cell_at. rewrite bind_Some. split.
  - intros (row & Hr & Hv). cbv beta in Hv.
    rewrite getitem_lookup in Hr by done.
    rewrite getitem_lookup in Hv by done. eauto.
  - intros (row & Hr & Hv). exists row. cbv beta.
    by rewrite !getitem_lookup.
Qed.

(** [draw] makes one call per cell of the grid, for the cell at
    [(x, y)] at screen position [(y + 1, x + 1)]. *)
Lemma elem_of_draw (g : Grid) c :
  c ∈ draw g ↔
  ∃ x y v, 0 ≤ x ∧ 0 ≤ y ∧ cell_at g x y = Some v
           ∧ c = Addstr (y + 1) (x + 1) v (color_of v).
Proof.
  unfold draw. rewrite elem_of_draw_rows. split.
  - intros (j & i & row & v & Hj & Hi & ->).
    exists (Z.of_nat i), (Z.of_nat j), v.
    split; [lia|]. split; [lia|]. split.
    + apply cell_at_nonneg; [lia..|]. exists row. by rewrite !Nat2Z.id.
    + f_equal; lia.
  - intros (x & y & v & Hx & Hy & Hc & ->).
    apply cell_at_nonneg in Hc as (row & Hr & Hv); [|done..].
    exists (Z.to_nat y), (Z.to_nat x), row, v.
    repeat split; [done..|]. f_equal; lia.
Qed.

Lemma neighbour_offsets_range dx dy :
  (dx, dy) ∈ neighbour_offsets → -1 ≤ dx ≤ 1 ∧ -1 ≤ dy ≤ 1.
Proof.
  unfold neighbour_offsets. intros H.
  repeat (apply elem_of_cons in H as [H|H]; [simplify_eq; lia|]).
  by apply elem_of_nil in H.
Qed.

Lemma dimensions_lookups_within (g : Grid) cols rows :
  dimensions g cols rows → lookups_within g cols rows.
Proof.
  intros Hd x y dx dy Hx Hy Hoff.
  apply neighbour_offsets_range in Hoff.
  apply (wrap_border_one_step g cols rows); (done || lia).
Qed.

Lemma dimensions_cell_at_range (g : Grid) cols rows x y v :
  dimensions g cols rows → 0 ≤ x → 0 ≤ y → cell_at g x y = Some v →
  x < cols ∧ y < rows.
Proof.
  intros [Hlen Hall] Hx Hy Hc.
  apply cell_at_nonneg in Hc as (row & Hr & Hv); [|done..].
  pose proof (lookup_lt_Some _ _ _ Hr) as Hly.
  pose proof (lookup_lt_Some _ _ _ Hv) as Hlx.
  assert (len row = cols) as Hrow.
  { apply (proj1 (Forall_forall _ _) Hall).
    apply list_elem_of_lookup. eauto. }
  unfold len in *. lia.
Qed.

Lemma dimensions_drawn_within (g : Grid) cols rows :
  dimensions g cols rows → drawn_within g cols rows.
Proof.
  intros Hd c Hc.
  apply elem_of_draw in Hc as (x & y & v & Hx & Hy & Hv & ->). simpl.
  destruct (dimensions_cell_at_range _ _ _ _ _ _ Hd Hx Hy Hv). lia.
Qed.

(** C3, as the code has it. The extra row and column are part of the
    grid: for a window of [cols] x [rows] the grid [set_up_grid] returns
    has [cols + 1] columns and [rows + 1] rows, and it is this allocated
    size that [wrap_border] wraps at and [draw] renders. Every neighbour
    lookup for a cell of the allocated grid resolves to a cell of the
    allocated grid; the lookup to the left of column 0 reads column
    [cols] and the one above row 0 reads row [rows]; and [draw] writes
    every allocated cell, the extra ones included, and nothing else. *)
Theorem extra_row_and_column_in_play sp (cols rows : Z) seed (g : Grid) :
  0 ≤ cols → 0 ≤ rows →
  set_up_grid sp (cols, rows) seed = Some g →
  dimensions g (cols + 1) (rows + 1)
  ∧ lookups_within g (cols + 1) (rows + 1)
  ∧ drawn_within g (cols + 1) (rows + 1)
  ∧ (∀ y, 0 ≤ y ≤ rows → wrap_border (-1) y g = Some (cols, y))
  ∧ (∀ x, 0 ≤ x ≤ cols → wrap_border x (-1) g = Some (x, rows))
  ∧ (∀ x y, 0 ≤ x ≤ cols → 0 ≤ y ≤ rows →
       ∃ v, cell_at g x y = Some v
            ∧ Addstr (y + 1) (x + 1) v (color_of v) ∈ draw g).
Proof.
  intros Hc Hr Hg.
  assert (dimensions g (cols + 1) (rows + 1)) as Hd.
  { apply set_up_grid_dimensions in Hg.
    by rewrite !Z.max_r in Hg by lia. }
  split; [done|].
  split; [by apply dimensions_lookups_within|].
  split; [by apply dimensions_drawn_within|].
  destruct (dimensions_first_row g _ _ Hd) as (row0 & H0 & Hl); [lia|].
  pose proof Hd as [Hlen _].
  split; [|split].
  - intros y Hy. unfold wrap_border. rewrite H0. simpl. rewrite Hl, Hlen.
    destruct (Z.leb_spec (cols + 1) (-1)), (Z.leb_spec (rows + 1) y),
      (Z.ltb_spec y 0); try lia. f_equal. f_equal. lia.
  - intros x Hx. unfold wrap_border. rewrite H0. simpl. rewrite Hl, Hlen.
    destruct (Z.leb_spec (cols + 1) x), (Z.ltb_spec x 0),
      (Z.leb_spec (rows + 1) (-1)); try lia. f_equal. f_equal. lia.
  - intros x y Hx Hy.
    destruct (dimensions_cell_at g _ _ x y Hd) as [v Hv]; [lia..|].
    exists v. split; [done|]. apply elem_of_draw.
    exists x, y, v. repeat split; (done || lia).
Qed.

Lemma extra_row_and_column_in_play_witness :
  wrap_border (-1) 0 (replicate 3 (replicate 3 dead_c)) = Some (2, 0).
Proof.
  refine (proj1 (proj2 (proj2 (proj2
            (extra_row_and_column_in_play 10 2 2 None _ _ _ _)))) 0 _);
    try lia.
  vm_compute. reflexivity.
Defined.

(** C3, as stated, fails. For a 2 x 2 window the grid is 3 x 3; the
    lookup to the left of cell (0, 0) resolves to (2, 0), a cell of the
    extra column, and [draw] writes that cell at screen column 3. The
    extra cells also take part in the game: one generation after
    seeding three cells of the 2 x 2 area, every cell of the 3 x 3 grid
    is alive. *)
Lemma extra_cells_read_and_drawn :
  ∃ g, set_up_grid 10 (2, 2) None = Some g
       ∧ ¬ lookups_within g 2 2
       ∧ ¬ drawn_within g 2 2
       ∧ advance (picture ["xx-"; "x--"; "---"]) g false
         = Some (picture ["xxx"; "xxx"; "xxx"], true).
Proof.
  eexists. split; [vm_compute; reflexivity|]. split; [|split].
  - intros H.
    destruct (H 0 0 (-1) 0) as (x' & y' & Hw & Hx & Hy); [lia..| |].
    + unfold neighbour_offsets. apply list_elem_of_here.
    + vm_compute in Hw. simplify_eq. lia.
  - intros H.
    destruct (H (Addstr 1 3 dead_c 1)) as [Hx Hy]; [|simpl in Hx; lia].
    vm_compute. do 2 apply list_elem_of_further. apply list_elem_of_here.
  - vm_compute. reflexivity.
Qed.

(** ** Seeding *)

Lemma cell_at_lookup (g : Grid) x y :
  0 ≤ x → 0 ≤ y →
  cell_at g x y = (row ← g !! Z.to_nat y; row !! Z.to_nat x).
Proof.
  intros Hx Hy. apply option_eq. intros v.
  rewrite cell_at_nonneg, bind_Some by done. done.
Qed.

(** An in-range [grid[y][x] = v] goes through, sets that cell and leaves
    the others. *)
Lemma set_cell_in_range (g : Grid) cols rows x y v :
  dimensions g cols rows → 0 ≤ x < cols → 0 ≤ y < rows →
  ∃ g', set_cell g x y v = Some g'
        ∧ cell_at g' x y = Some v
        ∧ (∀ x' y', 0 ≤ x' → 0 ≤ y' → (x', y') ≠ (x, y) →
             cell_at g' x' y' = cell_at g x' y').
Proof.
  intros [Hlen Hall] Hx Hy.
  assert (Z.to_nat y < length g)%nat as Hly by (unfold len in Hlen; lia).
  destruct (lookup_lt_is_Some_2 g _ Hly) as [row Hrow].
  assert (len row = cols) as Hrl.
  { apply (proj1 (Forall_forall _ _) Hall).
    apply list_elem_of_lookup. eauto. }
  assert (Z.to_nat x < length row)%nat as Hlx by (unfold len in Hrl; lia).
  exists (<[Z.to_nat y := <[Z.to_nat x := v]> row]> g).
  split; [|split].
  - unfold set_cell. rewrite getitem_nonneg, Hrow by lia. simpl.
    rewrite setitem_nonneg by lia. simpl. by rewrite setitem_nonneg by lia.
  - rewrite cell_at_lookup by lia.
    rewrite list_lookup_insert_eq by done. simpl.
    by rewrite list_lookup_insert_eq.
  - intros x' y' Hx' Hy' Hne. rewrite !cell_at_lookup by lia.
    destruct (decide (Z.to_nat y = Z.to_nat y')) as [Heq|Hney].
    + rewrite <- Heq, list_lookup_insert_eq, Hrow by done. simpl.
      apply list_lookup_insert_ne. intros Hxx.
      apply Hne. f_equal; lia.
    + by rewrite list_lookup_insert_ne.
Qed.

Lemma randint_range rnd k a b :
  a ≤ b → ∃ v, randint rnd k a b = Some v ∧ a ≤ v ≤ b.
Proof.
  intros Hab. unfold randint. destruct (Z.ltb_spec b a); [lia|].
  eexists. split; [reflexivity|].
  pose proof (Z.mod_pos_bound (rnd k) (b - a + 1)). lia.
Qed.

Lemma seed_trial_range rnd rows cols j :
  0 < cols → 0 < rows →
  ∃ x y, seed_trial rnd rows cols j = Some (x, y)
         ∧ 0 ≤ x < cols ∧ 0 ≤ y < rows.
Proof.
  intros Hc Hr. unfold seed_trial.
  destruct (randint_range rnd (2 * j) 0 (rows - 1)) as (y & -> & Hy); [lia|].
  destruct (randint_range rnd (2 * j + 1) 0 (cols - 1)) as (x & -> & Hx);
    [lia|].
  exists x, y. simpl. split; [done|]. lia.
Qed.

(** The seeding loop over a grid that contains the [cols] x [rows] area:
    it goes through; a cell some pass picked is alive afterwards, a live
    cell stays alive, and a cell no pass picked is as before. *)
Lemma seed_loop_spec rnd rows cols c r n :
  0 < cols ≤ c → 0 < rows ≤ r →
  ∀ j (g : Grid), dimensions g c r →
  ∃ g', seed_loop n rnd rows cols j g = Some g'
        ∧ (∀ i x y, (j ≤ i < j + n)%nat →
             seed_trial rnd rows cols i = Some (x, y) →
             cell_at g' x y = Some alive_c)
        ∧ (∀ x y, 0 ≤ x → 0 ≤ y → cell_at g x y = Some alive_c →
             cell_at g' x y = Some alive_c)
        ∧ (∀ x y, 0 ≤ x → 0 ≤ y →
             (∀ i, (j ≤ i < j + n)%nat →
                seed_trial rnd rows cols i ≠ Some (x, y)) →
             cell_at g' x y = cell_at g x y).
Proof.
  intros Hc Hr. induction n as [|n IH]; intros j g Hd; simpl.
  - exists g. split; [done|]. split; [intros; lia|]. done.
  - destruct (seed_trial_range rnd rows cols j) as (x & y & Ht & Hx & Hy);
      [lia..|].
    rewrite Ht. simpl.
    destruct (set_cell_in_range g c r x y alive_c Hd)
      as (g1 & Hs & Hset & Hother); [lia..|].
    rewrite Hs. simpl.
    destruct (IH (S j) g1) as (g' & Hl & Hhit & Hmono & Hmiss);
      [by eapply set_cell_dimensions|].
    exists g'. split; [done|]. split; [|split].
    + intros i x' y' Hi Hti.
      destruct (decide (i = j)) as [->|Hij].
      * rewrite Ht in Hti. simplify_eq. apply Hmono; (done || lia).
      * eapply Hhit; [|exact Hti]. lia.
    + intros x' y' Hx' Hy' Ha. apply Hmono; [done..|].
      destruct (decide ((x', y') = (x, y))) as [[= -> ->]|Hne]; [done|].
      by rewrite Hother.
    + intros x' y' Hx' Hy' Hno.
      rewrite Hmiss; [|done..|intros i Hi; apply Hno; lia].
      apply Hother; [done..|]. intros [= -> ->].
      apply (Hno j); [lia|done].
Qed.

Lemma all_dead_cell_at (g : Grid) x y v :
  all_dead g → cell_at g x y = Some v → v = dead_c.
Proof.
  unfold cell_at. intros Hg H.
  apply bind_Some in H as (row & Hr & Hv).
  apply getitem_elem_of in Hr, Hv.
  apply (proj1 (Forall_forall _ _) (proj1 (Forall_forall _ _) Hg row Hr)).
  done.
Qed.

(** ** The seed count *)

Lemma float_of_int_finite n f :
  float_of_int n = Some f →
  (∃ s, f = S754_zero s) ∨ (∃ s m e, f = S754_finite s m e).
Proof.
  unfold float_of_int.
  destruct (binary_normalize 53 1024 n 0 false); intros H; simplify_eq;
    eauto.
Qed.

Lemma seed_count_zero rows cols f :
  float_of_int (rows * cols) = Some f → seed_count 0 rows cols = Some 0.
Proof.
  intros Hf. unfold seed_count. rewrite Hf.
  change (float_of_int 0) with (Some (S754_zero false)).
  replace (float_of_int 100)
    with (Some (S754_finite false 7036874417766400 (-46)))
    by (vm_compute; reflexivity).
  simpl.
  apply float_of_int_finite in Hf as [[s ->]|(s & m & e & ->)]; done.
Qed.

(** Proves [c_long] of a number that is written out. *)
Ltac c_long_of_literal := split; vm_compute; discriminate.

Lemma maxint_nonneg : 0 ≤ maxint.
Proof. vm_compute. discriminate. Qed.

(** The coordinate a seeding pass picks is the pair of residues of its
    two random draws. *)
Lemma seed_trial_residues rnd rows cols j x y :
  0 < cols → 0 < rows →
  seed_trial rnd rows cols j = Some (x, y) ↔
  rnd (2 * j)%nat `mod` rows = y ∧ rnd (2 * j + 1)%nat `mod` cols = x.
Proof.
  intros Hc Hr. unfold seed_trial, randint.
  destruct (Z.ltb_spec (rows - 1) 0); [lia|].
  destruct (Z.ltb_spec (cols - 1) 0); [lia|]. simpl.
  replace (rows - 1 - 0 + 1) with rows by lia.
  replace (cols - 1 - 0 + 1) with cols by lia.
  split; [intros [= <- <-]; done|]. by intros [<- <-].
Qed.

Lemma set_up_grid_seeded sp cols rows rnd n :
  seed_count sp rows cols = Some n → 0 < cols → 0 < rows →
  c_long (cols + 1) → c_long (rows + 1) → c_long n →
  ∃ g, set_up_grid sp (cols, rows) (Some rnd) = Some g
       ∧ (∀ j, (j < Z.to_nat n)%nat →
            ∃ x y, seed_trial rnd rows cols j = Some (x, y)
                   ∧ 0 ≤ x < cols ∧ 0 ≤ y < rows
                   ∧ cell_at g x y = Some alive_c)
       ∧ (∀ x y, 0 ≤ x ≤ cols → 0 ≤ y ≤ rows →
            (∀ j, (j < Z.to_nat n)%nat →
               seed_trial rnd rows cols j ≠ Some (x, y)) →
            cell_at g x y = Some dead_c).
Proof.
  intros Hn Hc Hr Hlc Hlr Hln.
  rewrite (set_up_grid_eq _ _ _ _ _ Hn Hlr Hlc), (xrange_c_long _ Hln).
  simpl.
  pose proof (fresh_grid_dimensions cols rows) as Hd.
  rewrite !Z.max_r in Hd by lia.
  destruct (seed_loop_spec rnd rows cols (cols + 1) (rows + 1)
              (Z.to_nat n) ltac:(lia) ltac:(lia) 0%nat _ Hd)
    as (g & Hg & Hhit & _ & Hmiss).
  exists g. split; [done|]. split.
  - intros j Hj.
    destruct (seed_trial_range rnd rows cols j Hc Hr)
      as (x & y & Ht & Hx & Hy).
    exists x, y. repeat split; try (done || lia).
    eapply Hhit; [|exact Ht]. lia.
  - intros x y Hx Hy Hno.
    rewrite Hmiss; [|lia..|intros i Hi; apply Hno; lia].
    destruct (dimensions_cell_at _ _ _ x y Hd) as [v Hv]; [lia..|].
    rewrite Hv. f_equal.
    eapply all_dead_cell_at; [|exact Hv]. apply fresh_grid_all_dead.
Qed.

(** C6, as the code has it. The number of seeding passes is
    [int((seed_percentage / 100.0) * (rows * cols))]: the double
    precision product cut off toward zero ([seed_count]), not rounded;
    [xrange] wants it to be a C long. For a window of positive size
    [set_up_grid] then returns a grid; each of the passes picks a
    coordinate of [0, cols) x [0, rows) and the cell there is alive in
    the result; every cell no pass picked is dead. The pick is uniform:
    it is the pair of the two [random.randint] draws, [y] from
    [0, rows) and [x] from [0, cols), so that every coordinate of the
    area is the pick for exactly one pair of residues of the draws, and
    every coordinate can be picked. With a seed percentage of 0 the
    grid is all dead, whatever the window size. *)
Theorem seeding_trials :
  (∀ sp cols rows rnd n,
     seed_count sp rows cols = Some n → 0 < cols → 0 < rows →
     c_long (cols + 1) → c_long (rows + 1) → c_long n →
     ∃ g, set_up_grid sp (cols, rows) (Some rnd) = Some g
          ∧ (∀ j, (j < Z.to_nat n)%nat →
               ∃ x y, seed_trial rnd rows cols j = Some (x, y)
                      ∧ 0 ≤ x < cols ∧ 0 ≤ y < rows
                      ∧ cell_at g x y = Some alive_c)
          ∧ (∀ x y, 0 ≤ x ≤ cols → 0 ≤ y ≤ rows →
               (∀ j, (j < Z.to_nat n)%nat →
                  seed_trial rnd rows cols j ≠ Some (x, y)) →
               cell_at g x y = Some dead_c))
  ∧ (∀ cols rows j, 0 < cols → 0 < rows →
       (∀ rnd x y,
          seed_trial rnd rows cols j = Some (x, y) ↔
          rnd (2 * j)%nat `mod` rows = y
          ∧ rnd (2 * j + 1)%nat `mod` cols = x)
       ∧ (∀ x y, 0 ≤ x < cols → 0 ≤ y < rows →
            ∃ rnd, seed_trial rnd rows cols j = Some (x, y)))
  ∧ (∀ cols rows rnd f,
       float_of_int (rows * cols) = Some f →
       c_long (cols + 1) → c_long (rows + 1) →
       ∃ g, set_up_grid 0 (cols, rows) (Some rnd) = Some g ∧ all_dead g).
Proof.
  split; [exact set_up_grid_seeded|]. split.
  - intros cols rows j Hc Hr. split.
    + intros rnd x y. by apply seed_trial_residues.
    + intros x y Hx Hy.
      exists (fun k => if Nat.even k then y else x).
      apply seed_trial_residues; [done..|].
      replace (Nat.even (2 * j)) with true
        by (symmetry; apply Nat.even_spec; by exists j).
      replace (Nat.even (2 * j + 1)) with false.
      * by rewrite !Z.mod_small by lia.
      * symmetry. rewrite <- Nat.negb_odd. apply negb_false_iff.
        apply Nat.odd_spec. by exists j.
  - intros cols rows rnd f Hf Hlc Hlr.
    rewrite (set_up_grid_eq _ _ _ _ _ (seed_count_zero _ _ _ Hf) Hlr Hlc).
    simpl. eexists. split; [reflexivity|]. apply fresh_grid_all_dead.
Qed.

Lemma seeding_trials_witness :
  (∃ g, set_up_grid 200 (2, 2) (Some sample_rnd) = Some g
        ∧ (∀ j, (j < Z.to_nat 8)%nat →
             ∃ x y, seed_trial sample_rnd 2 2 j = Some (x, y)
                    ∧ 0 ≤ x < 2 ∧ 0 ≤ y < 2
                    ∧ cell_at g x y = Some alive_c)
        ∧ (∀ x y, 0 ≤ x ≤ 2 → 0 ≤ y ≤ 2 →
             (∀ j, (j < Z.to_nat 8)%nat →
                seed_trial sample_rnd 2 2 j ≠ Some (x, y)) →
             cell_at g x y = Some dead_c))
  ∧ (∃ g, set_up_grid 0 (10, 10) (Some sample_rnd) = Some g
          ∧ all_dead g).
Proof.
  split.
  - apply (proj1 seeding_trials 200 2 2 sample_rnd 8);
      [vm_compute; reflexivity | lia | lia | c_long_of_literal..].
  - apply (proj2 (proj2 seeding_trials) 10 10 _
             (S754_finite false 7036874417766400 (-46)));
      [vm_compute; reflexivity | c_long_of_literal..].
Defined.

(** C6, as stated, fails: for a seed percentage of 10 and a window of
    17 x 1 cells the code makes 1 pass, while 10% of 17 is 1.7 and
    rounds to 2. *)
Lemma seed_count_truncates :
  seed_count 10 1 17 = Some 1
  ∧ ¬ rounds_to (10 * (1 * 17)) 100 1
  ∧ rounds_to (10 * (1 * 17)) 100 2.
Proof. split; [vm_compute; reflexivity|]. unfold rounds_to. split; lia. Qed.

(** C5, as the code has it. [set_up_grid] checks nothing: for a window
    of positive size it returns a grid of the allocated size for every
    integer seed percentage whose pass count can be computed and is a C
    long (which is all [xrange] asks for), below 0 and above 100
    included; and for a window with a non-positive dimension it returns
    a grid whenever the pass count is not positive. *)
Theorem set_up_grid_accepts sp (cols rows : Z) rnd n :
  seed_count sp rows cols = Some n →
  c_long (cols + 1) → c_long (rows + 1) → c_long n →
  (0 < cols ∧ 0 < rows) ∨ n ≤ 0 →
  ∃ g, set_up_grid sp (cols, rows) (Some rnd) = Some g
       ∧ dimensions g (Z.max 0 (cols + 1)) (Z.max 0 (rows + 1)).
Proof.
  intros Hn Hlc Hlr Hln Hcase.
  assert (∃ g, set_up_grid sp (cols, rows) (Some rnd) = Some g)
    as [g Hg].
  { destruct Hcase as [[Hc Hr]|Hle].
    - destruct (set_up_grid_seeded sp cols rows rnd n Hn Hc Hr Hlc Hlr Hln)
        as (g & Hg & _). eauto.
    - rewrite (set_up_grid_eq _ _ _ _ _ Hn Hlr Hlc), (xrange_c_long _ Hln).
      simpl. replace (Z.to_nat n) with 0%nat by lia. simpl. eauto. }
  exists g. split; [done|]. by eapply set_up_grid_dimensions.
Qed.

Lemma set_up_grid_accepts_witness :
  ∃ g, set_up_grid 200 (2, 2) (Some sample_rnd) = Some g
       ∧ dimensions g 3 3.
Proof.
  apply (set_up_grid_accepts 200 2 2 _ 8).
  - vm_compute. reflexivity.
  - c_long_of_literal.
  - c_long_of_literal.
  - c_long_of_literal.
  - left. lia.
Defined.

(** C5, as stated, fails: a seed percentage of 200 (a probability of 2)
    and one of -50 both give a grid, and so does a window of 0 x 0 or
    of -1 x -1 cells. *)
Lemma invalid_seed_inputs_accepted :
  set_up_grid 200 (2, 2) (Some sample_rnd)
    = Some (picture ["xx-"; "x--"; "---"])
  ∧ set_up_grid (-50) (2, 2) (Some sample_rnd)
    = Some (picture ["---"; "---"; "---"])
  ∧ set_up_grid 10 (0, 0) (Some sample_rnd) = Some (picture ["-"])
  ∧ set_up_grid 10 (-1, -1) (Some sample_rnd) = Some [].
Proof. vm_compute. repeat split. Qed.

(** ** Stopping on an unchanged grid *)

Lemma check_for_extinction_spec (g : Grid) :
  check_for_extinction g = true ↔
  ∀ row c, row ∈ g → c ∈ row → c ≠ alive_c.
Proof.
  unfold check_for_extinction. split.
  - intros H row c Hrow Hc Heq.
    apply list_elem_of_In in Hrow, Hc.
    rewrite forallb_forall in H. specialize (H row Hrow).
    rewrite forallb_forall in H. specialize (H c Hc).
    subst c. discriminate.
  - intros H. apply forallb_forall. intros row Hrow.
    apply forallb_forall. intros c Hc.
    apply list_elem_of_In in Hrow, Hc.
    destruct (String.eqb_spec c alive_c) as [Heq|]; [|done].
    by destruct (H row c Hrow Hc).
Qed.

(** A key that is none of quit, re-seed and resize, and is not a pause
    ended by quit, lets [check_input] return without a re-seed. *)
Lemma check_input_proceeds si q c :
  q ≠ ord "q" → q ≠ KEY_RESIZE → q ≠ 10 → q ≠ 32 →
  ¬ (q = ord "p" ∧ c = ord "q") →
  ∃ ev si', check_input si q c = (ev, Polled false si').
Proof.
  intros Hq Hr H10 H32 Hp. unfold check_input, pause.
  destruct (Z.eqb_spec q (ord "q")); [done|].
  destruct (Z.eqb_spec q KEY_RESIZE); [done|].
  destruct (Z.eqb_spec q 10); [done|].
  destruct (Z.eqb_spec q 32); [done|].
  destruct (Z.eqb_spec q (ord "p")), (Z.eqb_spec c (ord "q")); simpl;
    try (by destruct Hp); eauto.
Qed.

(** C7, as the code has it. A pass whose generation step reports no
    changed cell never goes on to another pass. When moreover [draw]
    gets through and the key polled by [check_input] is none of quit,
    re-seed and resize (nor a pause ended by quit), the pass puts up the
    extinction message if no cell of the new grid is alive and the
    equilibrium message otherwise, pauses, and then returns from [main],
    or exits the program if the key read by the pause is quit. *)
Theorem unchanged_pass_stops sp s i fresh (ng : Grid) :
  set_up_grid sp (get_grid_dimensions (max_y i) (max_x i)) None
    = Some fresh →
  advance (grid s) fresh (changed s) = Some (ng, false) →
  (∀ s', (loop_body sp s i).2 ≠ Continue s')
  ∧ (draw_ok i = true →
     key i ≠ ord "q" → key i ≠ KEY_RESIZE → key i ≠ 10 → key i ≠ 32 →
     ¬ (key i = ord "p" ∧ pause_key i = ord "q") →
     ∃ ev2 si,
       check_input (sleep_interval s) (key i) (pause_key i)
         = (ev2, Polled false si)
       ∧ loop_body sp s i =
           ([Draw (draw ng);
             PutMsg (Iterations (iterations s)) (y_padding - 4)]
            ++ ev2
            ++ [PutMsg (Text (if check_for_extinction ng
                              then msg_extinct else msg_equilibrium))
                  (y_padding - 5);
                Pause (ack_key i)],
            if ack_key i =? ord "q" then Exited else Returned si))
  ∧ (check_for_extinction ng = true ↔
     ∀ row c, row ∈ ng → c ∈ row → c ≠ alive_c).
Proof.
  intros Hf Ha. split; [|split].
  - intros s' H. destruct (loop_body sp s i) as [ev o] eqn:E.
    simpl in H. subst o.
    apply loop_body_Continue in E as (f & ch & Hf' & Ha' & Hch & _).
    rewrite Hf in Hf'. by simplify_eq.
  - intros Hd Hq Hr H10 H32 Hp.
    destruct (check_input_proceeds (sleep_interval s) _ _ Hq Hr H10 H32 Hp)
      as (ev2 & si & Hci).
    exists ev2, si. split; [done|].
    unfold loop_body. rewrite Hf, Ha, Hd, Hci. simpl. reflexivity.
  - apply check_for_extinction_spec.
Qed.

Lemma unchanged_pass_stops_witness :
  loop_body 10 (initial_state block 10) (pass_in 4 4 (-1)) =
    ([Draw (draw block); PutMsg (Iterations 0) 3;
      PutMsg (Text msg_equilibrium) 2; Pause (-1)],
     Returned 10).
Proof.
  destruct (proj1 (proj2
              (unchanged_pass_stops 10 (initial_state block 10)
                 (pass_in 4 4 (-1))
                 (replicate 5 (replicate 5 dead_c)) block
                 ltac:(vm_compute; reflexivity)
                 ltac:(vm_compute; reflexivity)))
              ltac:(reflexivity) ltac:(discriminate) ltac:(discriminate)
              ltac:(discriminate) ltac:(discriminate)
              ltac:(intros [? _]; discriminate))
    as (ev2 & si & Hci & Hbody).
  vm_compute in Hci. injection Hci as <- <-. exact Hbody.
Defined.

(** C7, as stated, fails: in a pass where no cell of a block changed and
    the key polled is Enter, [main] returns right after [check_input];
    no stability message is put up and nothing pauses. *)
Lemma reseed_key_preempts_stability_message :
  advance block (replicate 5 (replicate 5 dead_c)) false
    = Some (block, false)
  ∧ loop_body 10 (initial_state block 10) (pass_in 4 4 10) =
      ([Draw (draw block); PutMsg (Iterations 0) 3], Returned 10).
Proof. split; vm_compute; reflexivity. Qed.

(** ** The grandfather grid *)

Lemma loop_states_step sp ins :
  ∀ s0 k s s',
    loop_states sp s0 ins !! k = Some s →
    loop_states sp s0 ins !! S k = Some s' →
    ∃ i ev, loop_body sp s i = (ev, Continue s').
Proof.
  induction ins as [|i ins IH]; intros s0 k s s' Hk HSk; simpl in *.
  - by destruct k.
  - destruct (loop_body sp s0 i) as [ev [s1| | |]] eqn:E;
      try by destruct k.
    destruct k as [|k]; simpl in *.
    + simplify_eq. destruct ins; simpl in HSk; simplify_eq; eauto.
    + by eapply IH.
Qed.

Lemma loop_states_head sp s0 ins s :
  loop_states sp s0 ins !! 0%nat = Some s → s = s0.
Proof. destruct ins; simpl; congruence. Qed.

Lemma loop_body_active sp s i ev s' :
  loop_body sp s i = (ev, Continue s') →
  iter_counter_active s' = true →
  iter_counter_active s = true ∧ iterations s' = iterations s + 1.
Proof.
  intros H Hact.
  apply loop_body_Continue in H
    as (_ & _ & _ & _ & _ & _ & _ & Ha & Hi & _).
  rewrite Hact in Hi. split; [|done].
  rewrite Ha in Hact. by destruct (bool_decide _).
Qed.

Lemma loop_states_counter sp s0 ins k :
  ∀ s, loop_states sp s0 ins !! k = Some s →
       iter_counter_active s = true →
       iterations s = iterations s0 + Z.of_nat k.
Proof.
  induction k as [|k IH]; intros s' Hk Hact.
  - apply loop_states_head in Hk. subst. lia.
  - destruct (lookup_lt_is_Some_2 (loop_states sp s0 ins) k) as [s Hs].
    { apply lookup_lt_Some in Hk. lia. }
    destruct (loop_states_step _ _ _ _ _ _ Hs Hk) as (i & ev & E).
    destruct (loop_body_active _ _ _ _ _ E Hact) as [Ha Hi].
    rewrite Hi, (IH s Hs Ha). lia.
Qed.

Lemma loop_states_changed sp s0 ins k s :
  changed s0 = false → loop_states sp s0 ins !! k = Some s →
  changed s = false.
Proof.
  intros H0 Hk. destruct k as [|k].
  - apply loop_states_head in Hk. by subst.
  - destruct (lookup_lt_is_Some_2 (loop_states sp s0 ins) k) as [p Hp].
    { apply lookup_lt_Some in Hk. lia. }
    destruct (loop_states_step _ _ _ _ _ _ Hp Hk) as (i & ev & E).
    by apply loop_body_Continue in E as (_ & _ & _ & _ & _ & _ & _ & _ & _ & ?).
Qed.

(** A pass over a grid without rows changes nothing, so it is not
    followed by another pass. *)
Lemma loop_body_grid_nonempty sp s i ev s' :
  loop_body sp s i = (ev, Continue s') → changed s = false → grid s ≠ [].
Proof.
  intros E Hch Hnil.
  apply loop_body_Continue in E as (fresh & ch & _ & Ha & -> & _).
  rewrite Hnil, Hch in Ha. unfold advance in Ha. simpl in Ha. discriminate.
Qed.

(** C2, as the code has it. Take a session started by [main] and the
    pass number [k] (from 0) of a pass that makes the comparison, the
    counter still being active. Then the counter equals [k], the new
    grid [ng] is the generation after the current grid, and the
    grandfather grid it is compared with is never the empty start value:
    for an even [k] it is the current grid itself, one generation older
    than [ng]; for an odd [k] it is the current grid of pass [k - 1],
    two generations older than [ng]. *)
Theorem grandfather_snapshot_age sp (g0 : Grid) si ins (k : nat) s i
    (ng gf : Grid) :
  loop_states sp (initial_state g0 si) ins !! k = Some s →
  iter_counter_active s = true →
  Compare ng gf ∈ (loop_body sp s i).1 →
  iterations s = Z.of_nat k
  ∧ (∃ fresh, advance (grid s) fresh false = Some (ng, true))
  ∧ gf ≠ []
  ∧ (Z.of_nat k `mod` 2 = 0 → gf = grid s)
  ∧ (Z.of_nat k `mod` 2 ≠ 0 →
     ∃ p, loop_states sp (initial_state g0 si) ins !! (k - 1)%nat = Some p
          ∧ gf = grid p
          ∧ ∃ fresh, advance (grid p) fresh false = Some (grid s, true)).
Proof.
  intros Hk Hact Hcmp.
  pose proof (loop_states_counter _ _ _ _ _ Hk Hact) as Hit. simpl in Hit.
  pose proof (loop_states_changed sp (initial_state g0 si) ins k s
                eq_refl Hk) as Hch.
  destruct (loop_body_compare _ _ _ _ _ Hcmp) as (s' & Ho & <- & <-).
  destruct (loop_body sp s i) as [ev o] eqn:E. simpl in Ho. subst o.
  pose proof (loop_body_grid_nonempty _ _ _ _ _ E Hch) as Hne.
  apply loop_body_Continue in E
    as (fresh & ch & _ & Ha & -> & _ & Hgf & _).
  rewrite Hch in Ha. rewrite Hit in Hgf.
  split; [lia|]. split; [eauto|].
  destruct (Z.eqb_spec (0 + Z.of_nat k `mod` 2) 0) as [Hev|Hodd].
  - replace (0 + Z.of_nat k) with (Z.of_nat k) in Hgf by lia.
    destruct (Z.eqb_spec (Z.of_nat k `mod` 2) 0); [|lia].
    rewrite Hgf. split; [done|]. split; [done|]. intros; lia.
  - replace (0 + Z.of_nat k) with (Z.of_nat k) in Hgf by lia.
    destruct (Z.eqb_spec (Z.of_nat k `mod` 2) 0); [lia|].
    destruct k as [|k]; [done|].
    destruct (lookup_lt_is_Some_2
                (loop_states sp (initial_state g0 si) ins) k) as [p Hp].
    { apply lookup_lt_Some in Hk. lia. }
    destruct (loop_states_step _ _ _ _ _ _ Hp Hk) as (i' & ev' & E').
    destruct (loop_body_active _ _ _ _ _ E' Hact) as [Hap _].
    pose proof (loop_states_counter _ _ _ _ _ Hp Hap) as Hitp.
    simpl in Hitp.
    pose proof (loop_states_changed sp (initial_state g0 si) ins k p
                  eq_refl Hp) as Hchp.
    pose proof (loop_body_grid_nonempty _ _ _ _ _ E' Hchp) as Hnep.
    apply loop_body_Continue in E'
      as (fresh' & ch' & _ & Ha' & -> & _ & Hgf' & _).
    rewrite Hchp in Ha'. rewrite Hitp in Hgf'.
    destruct (Z.eqb_spec ((0 + Z.of_nat k) `mod` 2) 0);
      [|rewrite Nat2Z.inj_succ in *; Z.div_mod_to_equations; lia].
    rewrite Hgf, Hgf'. split; [done|]. split; [intros; lia|].
    intros _. exists p. replace (S k - 1)%nat with k by lia. eauto.
Qed.

Lemma grandfather_snapshot_age_witness :
  ∃ p, loop_states 10 (initial_state blinker_h 10) [pass_in 4 4 (-1)]
         !! (1 - 1)%nat = Some p
       ∧ blinker_h = grid p
       ∧ ∃ fresh, advance (grid p) fresh false = Some (blinker_v, true).
Proof.
  refine (proj2 (proj2 (proj2 (proj2
            (grandfather_snapshot_age 10 blinker_h 10 [pass_in 4 4 (-1)]
               1 (State blinker_v blinker_h 1 true false 10)
               (pass_in 4 4 (-1)) blinker_h blinker_h _ _ _)))) _).
  - vm_compute. reflexivity.
  - reflexivity.
  - vm_compute. do 2 apply list_elem_of_further. apply list_elem_of_here.
  - discriminate.
Defined.

(** C2, as stated, fails. In the session of a glider, the comparison of
    pass 2 has for grandfather grid the current grid of that same pass:
    the grid one generation older than the new grid. It is not the grid
    of pass 1 (two generations older than the new grid), not the grid
    of pass 0 (two generations older than the current one), and not the
    empty start value. *)
Lemma grandfather_one_generation_old :
  ∃ s1 s2 s3,
    loop_states 10 (initial_state glider 10)
      [pass_in 5 5 (-1); pass_in 5 5 (-1); pass_in 5 5 (-1)]
      = [initial_state glider 10; s1; s2; s3]
    ∧ Compare (grid s3) (grandfather_grid s3)
        ∈ (loop_body 10 s2 (pass_in 5 5 (-1))).1
    ∧ grandfather_grid s3 = grid s2
    ∧ grandfather_grid s3 ≠ grid s1
    ∧ grandfather_grid s3 ≠ glider
    ∧ grandfather_grid s3 ≠ [].
Proof.
  do 3 eexists. split; [vm_compute; reflexivity|]. split; [|split].
  - vm_compute. do 2 apply list_elem_of_further. apply list_elem_of_here.
  - reflexivity.
  - vm_compute. repeat split; discriminate.
Qed.

(** * Further properties of the code *)

(** ** Lookups beyond one step *)

Lemma getitem_mod {A} (l : list A) n j :
  len l = n → - n ≤ j < n → getitem l j = l !! Z.to_nat (j `mod` n).
Proof.
  intros Hl Hj. destruct (Z.neg_nonneg_cases j) as [Hneg|Hpos].
  - unfold getitem, py_index. rewrite Hl.
    destruct (Z.leb_spec 0 j), (Z.ltb_spec j 0), (Z.leb_spec (- n) j);
      try lia.
    simpl. f_equal. f_equal. apply (Z.mod_unique_pos j n (-1)); lia.
  - rewrite getitem_nonneg by lia. by rewrite Z.mod_small by lia.
Qed.

Lemma getitem_outside {A} (l : list A) j :
  j < - len l ∨ len l ≤ j → getitem l j = None.
Proof.
  intros Hj. unfold getitem, py_index.
  destruct (Z.leb_spec 0 j), (Z.ltb_spec j (len l)), (Z.ltb_spec j 0),
    (Z.leb_spec (- len l) j); simpl; (done || lia).
Qed.

(** One coordinate after the adjustment of [wrap_border]. *)
Lemma getitem_wrapped {A} (l : list A) n i :
  len l = n → 0 < n →
  let i' := if n <=? i then i - n else if i <? 0 then n + i else i in
  (-2 * n ≤ i < 2 * n → getitem l i' = l !! Z.to_nat (i `mod` n))
  ∧ (¬ (-2 * n ≤ i < 2 * n) → getitem l i' = None).
Proof.
  intros Hl Hn i'. split.
  - intros Hi.
    assert (- n ≤ i' < n ∧ i' `mod` n = i `mod` n) as [Hi' Hmod].
    { unfold i'. destruct (Z.leb_spec n i), (Z.ltb_spec i 0); try lia.
      - split; [lia|]. replace i with (i - n + 1 * n) at 2 by lia.
        by rewrite Z.mod_add by lia.
      - split; [lia|]. replace (n + i) with (i + 1 * n) by lia.
        by rewrite Z.mod_add by lia. }
    by rewrite (getitem_mod l n i' Hl Hi'), Hmod.
  - intros Hi. apply getitem_outside. rewrite Hl. unfold i'.
    destruct (Z.leb_spec n i), (Z.ltb_spec i 0); lia.
Qed.

(** X2. [get_coordinate_value] on a grid of [cols] x [rows] cells: a
    coordinate up to two grid widths (heights) away is looked up on the
    torus, because a coordinate [wrap_border] leaves negative is then
    indexed from the end of the list; anything further away is an
    [IndexError]. *)
Theorem lookup_wraps_two_turns (g : Grid) (cols rows x y : Z) :
  dimensions g cols rows → 0 < cols → 0 < rows →
  (-2 * cols ≤ x < 2 * cols → -2 * rows ≤ y < 2 * rows →
   ∃ v, cell_at g (x `mod` cols) (y `mod` rows) = Some v
        ∧ get_coordinate_value x y g = Some (String.eqb v alive_c))
  ∧ (¬ (-2 * cols ≤ x < 2 * cols ∧ -2 * rows ≤ y < 2 * rows) →
     get_coordinate_value x y g = None).
Proof.
  intros Hd Hc Hr.
  destruct (dimensions_first_row g cols rows Hd Hr) as (row0 & H0 & Hl0).
  pose proof Hd as [Hlen Hall].
  destruct (getitem_wrapped g rows y Hlen Hr) as [Hyin Hyout].
  unfold get_coordinate_value, wrap_border. rewrite H0. simpl.
  rewrite Hl0, Hlen. unfold cell_at. split.
  - intros Hx Hy. rewrite (Hyin Hy).
    pose proof (Z.mod_pos_bound y rows Hr) as Hym.
    pose proof (Z.mod_pos_bound x cols Hc) as Hxm.
    destruct (lookup_lt_is_Some_2 g (Z.to_nat (y `mod` rows)))
      as [row Hrow]; [unfold len in Hlen; lia|].
    assert (len row = cols) as Hrl.
    { apply (proj1 (Forall_forall _ _) Hall).
      apply list_elem_of_lookup. eauto. }
    destruct (getitem_wrapped row cols x Hrl Hc) as [Hxin _].
    destruct (lookup_lt_is_Some_2 row (Z.to_nat (x `mod` cols)))
      as [v Hv]; [unfold len in Hrl; lia|].
    exists v. rewrite !getitem_nonneg by lia. rewrite Hrow. simpl.
    rewrite !getitem_nonneg by lia. rewrite (Hxin Hx), Hv. done.
  - intros Hout.
    destruct (decide (-2 * rows ≤ y < 2 * rows)) as [Hy|Hy].
    + rewrite (Hyin Hy).
      pose proof (Z.mod_pos_bound y rows Hr) as Hym.
      destruct (lookup_lt_is_Some_2 g (Z.to_nat (y `mod` rows)))
        as [row Hrow]; [unfold len in Hlen; lia|].
      assert (len row = cols) as Hrl.
      { apply (proj1 (Forall_forall _ _) Hall).
        apply list_elem_of_lookup. eauto. }
      destruct (getitem_wrapped row cols x Hrl Hc) as [_ Hxout].
      rewrite Hrow. simpl. rewrite Hxout by lia. done.
    + by rewrite (Hyout Hy).
Qed.

Lemma lookup_wraps_two_turns_witness :
  get_coordinate_value (-8) 7 blinker_h = Some true
  ∧ get_coordinate_value 10 2 blinker_h = None.
Proof.
  destruct (lookup_wraps_two_turns blinker_h 5 5 (-8) 7) as [Hin _];
    [split; [reflexivity|repeat constructor]|lia..|].
  destruct (lookup_wraps_two_turns blinker_h 5 5 10 2) as [_ Hout];
    [split; [reflexivity|repeat constructor]|lia..|].
  split; [|apply Hout; lia].
  destruct Hin as (v & Hv & Hget); [lia..|].
  vm_compute in Hv. injection Hv as <-. exact Hget.
Defined.

(** ** The speed keys *)

Lemma check_input_speed_up si c :
  check_input si (ord "+") c
  = ([], Polled false (if 0 <=? si - 50 then si - 50 else 0)).
Proof. reflexivity. Qed.

Lemma check_input_slow_down si c :
  check_input si (ord "-") c = ([], Polled false (si + 50)).
Proof. reflexivity. Qed.

Lemma poll_keys_speed_up si c keys :
  poll_keys si ((ord "+", c) :: keys)
  = poll_keys (if 0 <=? si - 50 then si - 50 else 0) keys.
Proof.
  change (poll_keys si ((ord "+", c) :: keys))
    with (match check_input si (ord "+") c with
          | (_, Polled _ si') => poll_keys si' keys
          | (_, PollExit) => si
          end).
  by rewrite check_input_speed_up.
Qed.

Lemma poll_keys_slow_down si c keys :
  poll_keys si ((ord "-", c) :: keys) = poll_keys (si + 50) keys.
Proof.
  change (poll_keys si ((ord "-", c) :: keys))
    with (match check_input si (ord "-") c with
          | (_, Polled _ si') => poll_keys si' keys
          | (_, PollExit) => si
          end).
  by rewrite check_input_slow_down.
Qed.

(** X3. How the speed keys compose on a non-negative interval: slowing
    down and then speeding up gives the interval back; speeding up and
    then slowing down gives it back only from 50 up (below that the
    result is 50, because of the floor at 0); and [n] speed-ups in a row
    leave [max(0, interval - 50 n)]. *)
Theorem speed_keys_compose (si c c' : Z) (n : nat) :
  0 ≤ si →
  poll_keys si [(ord "-", c); (ord "+", c')] = si
  ∧ poll_keys si [(ord "+", c); (ord "-", c')] = Z.max si 50
  ∧ poll_keys si (replicate n (ord "+", c)) = Z.max 0 (si - 50 * Z.of_nat n).
Proof.
  intros Hsi. split; [|split].
  - rewrite poll_keys_slow_down, poll_keys_speed_up. simpl.
    destruct (Z.leb_spec 0 (si + 50 - 50)); lia.
  - rewrite poll_keys_speed_up, poll_keys_slow_down. simpl.
    destruct (Z.leb_spec 0 (si - 50)); lia.
  - revert si Hsi. induction n as [|n IH]; intros si Hsi.
    + simpl. lia.
    + change (replicate (S n) (ord "+", c))
        with ((ord "+", c) :: replicate n (ord "+", c)).
      rewrite poll_keys_speed_up.
      destruct (Z.leb_spec 0 (si - 50)); rewrite IH by lia; lia.
Qed.

Lemma speed_keys_compose_witness :
  poll_keys 10 [(ord "+", -1); (ord "-", -1)] = 50.
Proof.
  exact (proj1 (proj2 (speed_keys_compose 10 (-1) (-1) 0
                         ltac:(discriminate)))).
Defined.

(** ** The iteration counter *)

Lemma loop_states_counter_bounds sp s0 ins k :
  ∀ s, loop_states sp s0 ins !! k = Some s →
       iterations s0 ≤ iterations s ≤ iterations s0 + Z.of_nat k.
Proof.
  induction k as [|k IH]; intros s' Hk.
  - apply loop_states_head in Hk. subst. lia.
  - destruct (lookup_lt_is_Some_2 (loop_states sp s0 ins) k) as [s Hs].
    { apply lookup_lt_Some in Hk. lia. }
    destruct (loop_states_step _ _ _ _ _ _ Hs Hk) as (i & ev & E).
    apply loop_body_Continue in E
      as (_ & _ & _ & _ & _ & _ & _ & _ & Hi & _).
    specialize (IH s Hs). rewrite Hi.
    destruct (iter_counter_active s'); lia.
Qed.

(** X4. In a session the counter shown as "Iterations" starts at 0,
    goes up by at most one per pass and never goes down; before pass [k]
    it is at most [k], and it equals [k] as long as no oscillation has
    been flagged. *)
Theorem iterations_counts_passes sp (g0 : Grid) si ins (k : nat) s :
  loop_states sp (initial_state g0 si) ins !! k = Some s →
  0 ≤ iterations s ≤ Z.of_nat k
  ∧ (iter_counter_active s = true → iterations s = Z.of_nat k)
  ∧ (∀ s', loop_states sp (initial_state g0 si) ins !! S k = Some s' →
           iterations s ≤ iterations s' ≤ iterations s + 1).
Proof.
  intros Hk. split; [|split].
  - apply loop_states_counter_bounds in Hk. simpl in Hk. lia.
  - intros Hact.
    pose proof (loop_states_counter _ _ _ _ _ Hk Hact) as H.
    simpl in H. lia.
  - intros s' HSk.
    destruct (loop_states_step _ _ _ _ _ _ Hk HSk) as (i & ev & E).
    apply loop_body_Continue in E
      as (_ & _ & _ & _ & _ & _ & _ & _ & Hi & _).
    rewrite Hi. destruct (iter_counter_active s'); lia.
Qed.

Lemma iterations_counts_passes_witness :
  0 ≤ iterations (State blinker_v blinker_h 1 true false 10) ≤ 1.
Proof.
  refine (proj1 (iterations_counts_passes 10 blinker_h 10
                   [pass_in 4 4 (-1)] 1 _ _)).
  vm_compute. reflexivity.
Defined.

(** ** The generation step, cell by cell *)

Lemma len_cons {A} (a : A) (l : list A) : len (a :: l) = 1 + len l.
Proof. unfold len. simpl. lia. Qed.

Lemma len_nonneg {A} (l : list A) : 0 ≤ len l.
Proof. unfold len. lia. Qed.

Lemma visit_next_cell (g ng ng1 : Grid) x y ch v old :
  next_cell g x y = Some v → cell_at g x y = Some old →
  set_cell ng x y v = Some ng1 →
  visit g x y (ng, ch)
  = Some (ng1, if String.eqb v old then ch else true).
Proof.
  unfold visit, next_cell. intros Hn Hold Hs.
  destruct (sum_adjecent_fields x y g) as [n|]; [|discriminate].
  simpl in *. rewrite Hn. simpl. rewrite Hold. simpl. by rewrite Hs.
Qed.

Lemma visit_inv (g ng ng1 : Grid) x y ch ch1 :
  visit g x y (ng, ch) = Some (ng1, ch1) →
  ∃ v old, next_cell g x y = Some v ∧ cell_at g x y = Some old
           ∧ set_cell ng x y v = Some ng1
           ∧ ch1 = (if String.eqb v old then ch else true).
Proof.
  unfold visit, next_cell. intros H.
  destruct (sum_adjecent_fields x y g) as [n|]; [|discriminate].
  simpl in *. destruct (decide_fate x y n g) as [v|]; [|discriminate].
  simpl in *. destruct (cell_at g x y) as [old|]; [|discriminate].
  simpl in *.
  destruct (set_cell ng x y v) as [ng'|] eqn:Es; [|discriminate].
  simpl in *. simplify_eq. eexists _, _. repeat split. exact Es.
Qed.

Lemma changed_flag_differs (g : Grid) x y v old ch :
  next_cell g x y = Some v → cell_at g x y = Some old →
  (if String.eqb v old then ch else true) = true
  ↔ ch = true ∨ differs g x y.
Proof.
  intros Hn Hold. unfold differs.
  destruct (String.eqb_spec v old) as [->|Hne]; split.
  - auto.
  - intros [?|(v' & old' & Hv' & Hold' & Hne)]; [done|].
    rewrite Hn in Hv'. rewrite Hold in Hold'. by simplify_eq.
  - intros _. right. eauto.
  - done.
Qed.

Lemma set_cell_success_range (ng ng' : Grid) c' r' x y v :
  dimensions ng c' r' → 0 ≤ x → 0 ≤ y →
  set_cell ng x y v = Some ng' → x < c' ∧ y < r'.
Proof.
  intros [Hlen Hall] Hx Hy. unfold set_cell. intros H.
  destruct (getitem ng y) as [row|] eqn:Er; [|discriminate]. simpl in H.
  destruct (setitem row x v) as [row'|] eqn:Es; [|discriminate].
  assert (len row = c') as Hrl.
  { apply (proj1 (Forall_forall _ _) Hall). by eapply getitem_elem_of. }
  rewrite getitem_lookup in Er by done.
  apply lookup_lt_Some in Er.
  unfold setitem in Es.
  destruct (py_index x (len row)) as [k|] eqn:Ek; [|discriminate].
  unfold py_index in Ek.
  destruct (Z.leb_spec 0 x), (Z.ltb_spec x (len row)), (Z.ltb_spec x 0);
    simpl in Ek; try discriminate; try lia.
  unfold len in *. lia.
Qed.

Section GenerationStep.
Variables (g : Grid) (c r c' r' : Z).
Hypothesis Hd : dimensions g c r.

(** The inner loop over the cells [x0, x0 + len row) of row [y], when the
    new grid is at least as large as the current one. *)
Lemma advance_row_spec y :
  0 ≤ y < r → c ≤ c' → r ≤ r' →
  ∀ row x0 (ng : Grid) ch,
    dimensions ng c' r' → 0 ≤ x0 → x0 + len row ≤ c →
    ∃ ng' ch',
      advance_row g row x0 y (ng, ch) = Some (ng', ch')
      ∧ dimensions ng' c' r'
      ∧ (∀ x, x0 ≤ x < x0 + len row → cell_at ng' x y = next_cell g x y)
      ∧ (∀ x' y', 0 ≤ x' → 0 ≤ y' →
           ¬ (y' = y ∧ x0 ≤ x' < x0 + len row) →
           cell_at ng' x' y' = cell_at ng x' y')
      ∧ (ch' = true ↔
         ch = true ∨ ∃ x, x0 ≤ x < x0 + len row ∧ differs g x y).
Proof.
  intros Hy Hc Hr. induction row as [|a row IH];
    intros x0 ng ch Hng Hx0 Hfit.
  - exists ng, ch. simpl. split; [done|]. split; [done|].
    unfold len. simpl. split; [intros; lia|]. split; [done|].
    split; [auto|]. intros [?|(x & ? & _)]; [done|lia].
  - rewrite len_cons in Hfit. pose proof (len_nonneg row).
    destruct (neighbourhood_defined g c r x0 y Hd) as (n & v & Hn & Hv);
      [lia..|].
    assert (next_cell g x0 y = Some v) as Hnext.
    { unfold next_cell. rewrite Hn. done. }
    destruct (dimensions_cell_at g c r x0 y Hd) as [old Hold]; [lia..|].
    destruct (set_cell_in_range ng c' r' x0 y v Hng)
      as (ng1 & Hs & Hset & Hother); [lia..|].
    pose proof (set_cell_dimensions _ _ _ _ _ _ _ Hs Hng) as Hng1.
    destruct (IH (x0 + 1) ng1 (if String.eqb v old then ch else true) Hng1)
      as (ng' & ch' & Hrow & Hng' & Hcells & Hout & Hch); [lia..|].
    exists ng', ch'. cbn [advance_row].
    rewrite (visit_next_cell g ng ng1 x0 y ch v old Hnext Hold Hs). simpl.
    split; [done|]. split; [done|]. rewrite len_cons.
    split; [|split].
    + intros x Hx. destruct (decide (x = x0)) as [->|Hne].
      * rewrite Hout by lia. by rewrite Hset.
      * apply Hcells. lia.
    + intros x' y' Hx' Hy' Hno. rewrite Hout by lia.
      apply Hother; [done..|]. intros [= -> ->]. lia.
    + rewrite Hch, (changed_flag_differs g x0 y v old ch Hnext Hold).
      split.
      * intros [[?|?]|(x & Hx & Hdiff)]; [auto|right..].
        -- exists x0. split; [lia|done].
        -- exists x. split; [lia|done].
      * intros [?|(x & Hx & Hdiff)]; [auto|].
        destruct (decide (x = x0)) as [->|Hne]; [auto|].
        right. exists x. split; [lia|done].
Qed.

(** The outer loop over the rows [y0, y0 + len rows). *)
Lemma advance_rows_spec :
  c ≤ c' → r ≤ r' →
  ∀ rows y0 (ng : Grid) ch,
    dimensions ng c' r' → 0 ≤ y0 → y0 + len rows ≤ r →
    Forall (fun row => len row = c) rows →
    ∃ ng' ch',
      advance_rows g rows y0 (ng, ch) = Some (ng', ch')
      ∧ dimensions ng' c' r'
      ∧ (∀ x y, 0 ≤ x < c → y0 ≤ y < y0 + len rows →
           cell_at ng' x y = next_cell g x y)
      ∧ (∀ x' y', 0 ≤ x' → 0 ≤ y' →
           ¬ (0 ≤ x' < c ∧ y0 ≤ y' < y0 + len rows) →
           cell_at ng' x' y' = cell_at ng x' y')
      ∧ (ch' = true ↔
         ch = true
         ∨ ∃ x y, 0 ≤ x < c ∧ y0 ≤ y < y0 + len rows ∧ differs g x y).
Proof.
  intros Hc Hr. induction rows as [|row rows IH];
    intros y0 ng ch Hng Hy0 Hfit Hall.
  - exists ng, ch. simpl. split; [done|]. split; [done|].
    unfold len. simpl. split; [intros; lia|]. split; [done|].
    split; [auto|]. intros [?|(x & y & _ & ? & _)]; [done|lia].
  - rewrite len_cons in Hfit. pose proof (len_nonneg rows).
    apply Forall_cons in Hall as [Hrow Hall].
    destruct (advance_row_spec y0 ltac:(lia) Hc Hr row 0 ng ch Hng)
      as (ng1 & ch1 & Hr1 & Hng1 & Hcells1 & Hout1 & Hch1); [lia..|].
    destruct (IH (y0 + 1) ng1 ch1 Hng1)
      as (ng' & ch' & Hrs & Hng' & Hcells & Hout & Hch); [lia..|done|].
    exists ng', ch'. simpl. rewrite Hr1. simpl.
    split; [done|]. split; [done|]. rewrite len_cons.
    split; [|split].
    + intros x y Hx Hy. destruct (decide (y = y0)) as [->|Hne].
      * rewrite Hout by lia. apply Hcells1. lia.
      * apply Hcells; lia.
    + intros x' y' Hx' Hy' Hno. rewrite Hout by lia.
      apply Hout1; [done..|]. lia.
    + rewrite Hch, Hch1. split.
      * intros [[?|(x & Hx & Hdiff)]|(x & y & Hx & Hy & Hdiff)];
          [auto|right..].
        -- exists x, y0. repeat split; (done || lia).
        -- exists x, y. repeat split; (done || lia).
      * intros [?|(x & y & Hx & Hy & Hdiff)]; [auto|].
        destruct (decide (y = y0)) as [->|Hne].
        -- left. right. exists x. split; [lia|done].
        -- right. exists x, y. repeat split; (done || lia).
Qed.

Lemma advance_spec (fresh : Grid) ch :
  dimensions fresh c' r' → c ≤ c' → r ≤ r' →
  ∃ ng ch',
    advance g fresh ch = Some (ng, ch')
    ∧ dimensions ng c' r'
    ∧ (∀ x y, 0 ≤ x < c → 0 ≤ y < r → cell_at ng x y = next_cell g x y)
    ∧ (∀ x y, 0 ≤ x → 0 ≤ y → ¬ (0 ≤ x < c ∧ 0 ≤ y < r) →
         cell_at ng x y = cell_at fresh x y)
    ∧ (ch' = true ↔
       ch = true ∨ ∃ x y, 0 ≤ x < c ∧ 0 ≤ y < r ∧ differs g x y).
Proof.
  intros Hf Hc Hr. pose proof Hd as [Hlen Hall].
  destruct (advance_rows_spec Hc Hr g 0 fresh ch Hf)
    as (ng & ch' & Ha & Hng & Hcells & Hout & Hch); [lia..|done|].
  exists ng, ch'. unfold advance. rewrite Hlen in *.
  split; [done|]. split; [done|]. split; [|split].
  - intros x y Hx Hy. apply Hcells; lia.
  - intros x y Hx Hy Hno. apply Hout; [done..|]. lia.
  - rewrite Hch. split.
    + intros [?|(x & y & ? & ? & ?)]; [auto|].
      right. exists x, y. repeat split; (done || lia).
    + intros [?|(x & y & ? & ? & ?)]; [auto|].
      right. exists x, y. repeat split; (done || lia).
Qed.
End GenerationStep.

Section GenerationStepSuccess.
Variables (g : Grid) (c c' r' : Z).

Lemma advance_row_success y :
  0 ≤ y →
  ∀ row x0 (ng : Grid) ch ng' ch',
    advance_row g row x0 y (ng, ch) = Some (ng', ch') →
    dimensions ng c' r' → 0 ≤ x0 →
    dimensions ng' c' r' ∧ (row ≠ [] → x0 + len row ≤ c' ∧ y < r').
Proof.
  intros Hy. induction row as [|a row IH];
    intros x0 ng ch ng' ch' H Hng Hx0; cbn [advance_row] in H.
  - simplify_eq. done.
  - destruct (visit g x0 y (ng, ch)) as [[ng1 ch1]|] eqn:Ev;
      [|discriminate].
    simpl in H.
    apply visit_inv in Ev as (v & old & _ & _ & Hs & _).
    destruct (set_cell_success_range _ _ _ _ _ _ _ Hng Hx0 Hy Hs).
    pose proof (set_cell_dimensions _ _ _ _ _ _ _ Hs Hng) as Hng1.
    destruct (IH _ _ _ _ _ H Hng1) as [Hng' Hfit]; [lia|].
    split; [done|]. intros _. rewrite len_cons.
    destruct row as [|b row]; [unfold len; simpl; lia|].
    destruct Hfit; [done|]. lia.
Qed.

Lemma advance_rows_success :
  ∀ rows y0 (ng : Grid) ch ng' ch',
    advance_rows g rows y0 (ng, ch) = Some (ng', ch') →
    dimensions ng c' r' → 0 ≤ y0 →
    Forall (fun row => len row = c) rows →
    dimensions ng' c' r'
    ∧ (0 < c → rows ≠ [] → c ≤ c' ∧ y0 + len rows ≤ r').
Proof.
  induction rows as [|row rows IH];
    intros y0 ng ch ng' ch' H Hng Hy0 Hall; cbn [advance_rows] in H.
  - simplify_eq. done.
  - apply Forall_cons in Hall as [Hrow Hall].
    destruct (advance_row g row 0 y0 (ng, ch)) as [[ng1 ch1]|] eqn:Er;
      [|discriminate].
    simpl in H.
    destruct (advance_row_success y0 Hy0 _ _ _ _ _ _ Er Hng) as [Hng1 Hfit];
      [lia|].
    destruct (IH _ _ _ _ _ H Hng1) as [Hng' Hfits]; [lia|done|].
    split; [done|]. intros Hc _. rewrite len_cons.
    destruct Hfit as [Hfc Hfr].
    { intros ->. unfold len in Hrow. simpl in Hrow. lia. }
    split; [lia|].
    destruct rows as [|row' rows]; [unfold len; simpl; lia|].
    destruct Hfits; [done..|]. lia.
Qed.

(** A grid without cells is passed over without a visit. *)
Lemma advance_rows_no_cells rows y0 (acc : Grid * bool) :
  Forall (fun row => len row = 0) rows →
  advance_rows g rows y0 acc = Some acc.
Proof.
  revert y0. induction rows as [|row rows IH]; intros y0 Hall; [done|].
  apply Forall_cons in Hall as [Hrow Hall].
  destruct row; [|unfold len in Hrow; simpl in Hrow; lia].
  cbn [advance_rows advance_row]. simpl. by apply IH.
Qed.
End GenerationStepSuccess.

Lemma advance_success (g fresh ng : Grid) ch ch' c r c' r' :
  dimensions g c r → dimensions fresh c' r' →
  advance g fresh ch = Some (ng, ch') →
  dimensions ng c' r' ∧ (0 < c → 0 < r → c ≤ c' ∧ r ≤ r').
Proof.
  intros [Hlen Hall] Hf H. unfold advance in H.
  destruct (advance_rows_success g c c' r' g 0 fresh ch ng ch' H Hf)
    as [Hng Hfit]; [lia|done|].
  split; [done|]. intros Hc Hr.
  destruct Hfit; [done| |lia].
  intros ->. unfold len in Hlen. simpl in Hlen. lia.
Qed.

(** What a completed generation step has done. *)
Lemma advance_inv (g fresh ng : Grid) ch ch' c r c' r' :
  dimensions g c r → dimensions fresh c' r' →
  advance g fresh ch = Some (ng, ch') →
  dimensions ng c' r'
  ∧ (∀ x y, 0 ≤ x < c → 0 ≤ y < r → cell_at ng x y = next_cell g x y)
  ∧ (∀ x y, 0 ≤ x → 0 ≤ y → ¬ (0 ≤ x < c ∧ 0 ≤ y < r) →
       cell_at ng x y = cell_at fresh x y)
  ∧ (ch' = true ↔
     ch = true ∨ ∃ x y, 0 ≤ x < c ∧ 0 ≤ y < r ∧ differs g x y).
Proof.
  intros Hd Hf H.
  destruct (decide (0 < c ∧ 0 < r)) as [[Hc Hr]|Hno].
  - destruct (advance_success _ _ _ _ _ _ _ _ _ Hd Hf H) as [_ Hfit].
    destruct (Hfit Hc Hr) as [Hcc Hrr].
    destruct (advance_spec g c r c' r' Hd fresh ch Hf Hcc Hrr)
      as (ng1 & ch1 & Ha & Hrest).
    rewrite H in Ha. by simplify_eq.
  - assert (advance g fresh ch = Some (fresh, ch)) as Hsame.
    { pose proof Hd as [Hlen Hall]. unfold advance.
      destruct g as [|row0 g'].
      - done.
      - apply advance_rows_no_cells.
        assert (c = 0) as ->; [|done].
        apply Forall_cons in Hall as [Hrow0 _].
        rewrite len_cons in Hlen.
        pose proof (len_nonneg g'). pose proof (len_nonneg row0). lia. }
    rewrite H in Hsame. simplify_eq.
    split; [done|]. split; [intros; lia|]. split; [done|].
    split; [auto|]. intros [?|(x & y & ? & ? & _)]; [done|lia].
Qed.

(** Two grids of the same size with the same cells are the same list. *)
Lemma grid_ext (a b : Grid) c r :
  dimensions a c r → dimensions b c r →
  (∀ x y, 0 ≤ x < c → 0 ≤ y < r → cell_at a x y = cell_at b x y) →
  a = b.
Proof.
  intros [Hla Ha] [Hlb Hb] Hcells. unfold len in *.
  apply (list_eq_same_length a b (length a)); [lia|done|].
  intros j ra rb Hj Hra Hrb.
  assert (len ra = c) as Hca.
  { apply (proj1 (Forall_forall _ _) Ha), list_elem_of_lookup. eauto. }
  assert (len rb = c) as Hcb.
  { apply (proj1 (Forall_forall _ _) Hb), list_elem_of_lookup. eauto. }
  unfold len in *.
  apply (list_eq_same_length ra rb (length ra)); [lia|done|].
  intros i va vb Hi Hva Hvb.
  specialize (Hcells (Z.of_nat i) (Z.of_nat j) ltac:(lia) ltac:(lia)).
  rewrite !cell_at_lookup in Hcells by lia.
  rewrite !Nat2Z.id, Hra, Hrb in Hcells. simpl in Hcells.
  rewrite Hva, Hvb in Hcells. by simplify_eq.
Qed.

(** Proves [dimensions] of a grid that is written out. *)
Ltac dimensions_of_literal := split; [reflexivity|repeat constructor].

(** X5. The generation step of a pass, for a current grid of [c] x [r]
    cells and a fresh grid of [c'] x [r'] cells. When the fresh grid is
    at least as large, the step completes. Whenever it completes, the
    new grid has the size of the fresh grid, its cell at every
    coordinate of the current grid is what [decide_fate] returns for the
    neighbour count there, every cell beyond the current grid is as in
    the fresh grid, and the [changed] flag is set exactly if it was set
    before or some cell got a value unlike its old one. *)
Theorem advance_computes_next_cells (g fresh : Grid) ch (c r c' r' : Z) :
  dimensions g c r → dimensions fresh c' r' →
  (c ≤ c' → r ≤ r' → is_Some (advance g fresh ch))
  ∧ (∀ ng ch',
       advance g fresh ch = Some (ng, ch') →
       dimensions ng c' r'
       ∧ (∀ x y, 0 ≤ x < c → 0 ≤ y < r →
            cell_at ng x y = next_cell g x y)
       ∧ (∀ x y, 0 ≤ x → 0 ≤ y → ¬ (0 ≤ x < c ∧ 0 ≤ y < r) →
            cell_at ng x y = cell_at fresh x y)
       ∧ (ch' = true ↔
          ch = true ∨ ∃ x y, 0 ≤ x < c ∧ 0 ≤ y < r ∧ differs g x y)).
Proof.
  intros Hd Hf. split.
  - intros Hc Hr.
    destruct (advance_spec g c r c' r' Hd fresh ch Hf Hc Hr)
      as (ng & ch' & Ha & _).
    rewrite Ha. eauto.
  - intros ng ch' Ha. by eapply advance_inv.
Qed.

Lemma advance_computes_next_cells_witness :
  cell_at blinker_v 2 1 = next_cell blinker_h 2 1.
Proof.
  refine (proj1 (proj2 (proj2 (advance_computes_next_cells blinker_h
            (replicate 5 (replicate 5 dead_c)) false 5 5 5 5 _ _)
            blinker_v true _)) 2 1 _ _); try lia.
  - dimensions_of_literal.
  - dimensions_of_literal.
  - vm_compute. reflexivity.
Defined.

(** X6. The [IndexError] that makes [main] return: for a current grid
    with at least one cell, the generation step raises it exactly when
    the fresh grid, sized for the window as it is now, has fewer columns
    or fewer rows than the current grid. *)
Theorem advance_fails_iff_smaller (g fresh : Grid) ch (c r c' r' : Z) :
  dimensions g c r → 0 < c → 0 < r → dimensions fresh c' r' →
  advance g fresh ch = None ↔ c' < c ∨ r' < r.
Proof.
  intros Hd Hc Hr Hf. split.
  - intros Hnone.
    destruct (decide (c ≤ c' ∧ r ≤ r')) as [[Hcc Hrr]|Hno]; [|lia].
    destruct (advance_spec g c r c' r' Hd fresh ch Hf Hcc Hrr)
      as (ng & ch' & Ha & _).
    rewrite Hnone in Ha. discriminate.
  - intros Hsmall.
    destruct (advance g fresh ch) as [[ng ch']|] eqn:Ha; [|done].
    destruct (advance_success _ _ _ _ _ _ _ _ _ Hd Hf Ha) as [_ Hfit].
    destruct (Hfit Hc Hr). lia.
Qed.

Lemma advance_fails_iff_smaller_witness :
  advance blinker_h (replicate 4 (replicate 5 dead_c)) false = None.
Proof.
  refine (proj2 (advance_fails_iff_smaller blinker_h
                   (replicate 4 (replicate 5 dead_c)) false 5 5 5 4
                   _ _ _ _) _); try lia.
  - dimensions_of_literal.
  - dimensions_of_literal.
Defined.

Lemma advance_changed_ne (g fresh ng : Grid) c r c' r' :
  dimensions g c r → dimensions fresh c' r' →
  advance g fresh false = Some (ng, true) → ng ≠ g.
Proof.
  intros Hd Hf Ha Heq.
  destruct (advance_inv _ _ _ _ _ _ _ _ _ Hd Hf Ha)
    as (_ & Hcells & _ & Hch).
  destruct (proj1 Hch eq_refl) as [?|(x & y & Hx & Hy & Hdiff)]; [done|].
  destruct Hdiff as (v & old & Hv & Hold & Hne).
  specialize (Hcells x y Hx Hy). rewrite Heq, Hv, Hold in Hcells.
  by simplify_eq.
Qed.

(** X7. What the equilibrium test stands on: when the window has kept
    its size, a generation step started with the [changed] flag down
    leaves it down exactly if the new grid is the same as the current
    one. *)
Theorem unchanged_iff_same_grid (g fresh ng : Grid) ch' (c r : Z) :
  dimensions g c r → dimensions fresh c r →
  advance g fresh false = Some (ng, ch') →
  ch' = false ↔ ng = g.
Proof.
  intros Hd Hf Ha. split.
  - intros ->.
    destruct (advance_inv _ _ _ _ _ _ _ _ _ Hd Hf Ha)
      as (Hng & Hcells & _ & Hch).
    apply (grid_ext ng g c r Hng Hd). intros x y Hx Hy.
    rewrite (Hcells x y Hx Hy).
    destruct (neighbourhood_defined g c r x y Hd Hx Hy)
      as (n & v & Hn & Hv).
    destruct (dimensions_cell_at g c r x y Hd Hx Hy) as [old Hold].
    assert (next_cell g x y = Some v) as Hnext.
    { unfold next_cell. by rewrite Hn. }
    rewrite Hnext, Hold. f_equal.
    destruct (decide (v = old)) as [|Hne]; [done|].
    assert (false = true) as Habs; [|done].
    apply Hch. right. exists x, y. repeat split; try lia.
    by exists v, old.
  - intros Heq. destruct ch'; [|done].
    by destruct (advance_changed_ne _ _ _ _ _ _ _ Hd Hf Ha).
Qed.

Lemma unchanged_iff_same_grid_witness : false = false ↔ block = block.
Proof.
  refine (unchanged_iff_same_grid block
            (replicate 5 (replicate 5 dead_c)) block false 5 5 _ _ _).
  - dimensions_of_literal.
  - dimensions_of_literal.
  - vm_compute. reflexivity.
Defined.

(** ** A grid without live cells *)

Lemma all_dead_lookup (g : Grid) x y b :
  all_dead g → get_coordinate_value x y g = Some b → b = false.
Proof.
  unfold get_coordinate_value. intros Hg H.
  destruct (wrap_border x y g) as [[x' y']|]; [|discriminate].
  simpl in H. destruct (cell_at g x' y') as [v|] eqn:Ev; [|discriminate].
  simpl in H. rewrite (all_dead_cell_at g x' y' v Hg Ev) in H.
  by simplify_eq.
Qed.

Lemma all_dead_count_if (g : Grid) x y s s' :
  all_dead g → count_if x y g s = Some s' → s' = s.
Proof.
  unfold count_if. intros Hg H.
  destruct (get_coordinate_value x y g) as [b|] eqn:Eb; [|discriminate].
  rewrite (all_dead_lookup g x y b Hg Eb) in H. simpl in H. by simplify_eq.
Qed.

Lemma all_dead_next_cell (g : Grid) x y v :
  all_dead g → next_cell g x y = Some v → v = dead_c.
Proof.
  unfold next_cell, sum_adjecent_fields. intros Hg H.
  repeat match type of H with
         | context [count_if ?a ?b g ?s ≫= _] =>
             let s' := fresh "s" in
             let E := fresh "E" in
             destruct (count_if a b g s) as [s'|] eqn:E; [|discriminate];
             apply (all_dead_count_if g _ _ _ _ Hg) in E; subst s';
             simpl in H
         end.
  unfold decide_fate in H.
  destruct (get_coordinate_value x y g) as [b|] eqn:Eb; [|discriminate].
  rewrite (all_dead_lookup g x y b Hg Eb) in H. simpl in H. by simplify_eq.
Qed.

Lemma set_up_grid_unseeded_all_dead sp dims (g : Grid) :
  set_up_grid sp dims None = Some g → all_dead g.
Proof.
  destruct dims as [cols rows]. intros H.
  apply set_up_grid_inv in H as (seeds & _ & ->).
  apply fresh_grid_all_dead.
Qed.

Lemma all_dead_extinct (g : Grid) :
  all_dead g → check_for_extinction g = true.
Proof.
  intros Hg. apply check_for_extinction_spec. intros row c Hrow Hc.
  rewrite (proj1 (Forall_forall _ _) (proj1 (Forall_forall _ _) Hg row Hrow)
             c Hc).
  discriminate.
Qed.

(** The generation step over a dead grid stores nothing but dead cells
    and reports no change. *)
Lemma advance_all_dead (g fresh : Grid) c r c' r' :
  all_dead g → dimensions g c r →
  all_dead fresh → dimensions fresh c' r' → c ≤ c' → r ≤ r' →
  advance g fresh false = Some (fresh, false).
Proof.
  intros Hg Hd Hfd Hf Hc Hr.
  destruct (advance_spec g c r c' r' Hd fresh false Hf Hc Hr)
    as (ng & ch' & Ha & Hng & Hcells & Hout & Hch).
  assert (∀ x y, 0 ≤ x < c → 0 ≤ y < r →
            next_cell g x y = Some dead_c ∧ cell_at g x y = Some dead_c)
    as Hdead.
  { intros x y Hx Hy.
    destruct (neighbourhood_defined g c r x y Hd Hx Hy)
      as (n & v & Hn & Hv).
    assert (next_cell g x y = Some v) as Hnext.
    { unfold next_cell. by rewrite Hn. }
    rewrite Hnext, (all_dead_next_cell g x y v Hg Hnext).
    destruct (dimensions_cell_at g c r x y Hd Hx Hy) as [old Hold].
    by rewrite Hold, (all_dead_cell_at g x y old Hg Hold). }
  assert (ng = fresh) as ->.
  { apply (grid_ext ng fresh c' r' Hng Hf). intros x y Hx Hy.
    destruct (decide (0 ≤ x < c ∧ 0 ≤ y < r)) as [[Hxc Hyr]|Hno].
    - rewrite (Hcells x y Hxc Hyr), (proj1 (Hdead x y Hxc Hyr)).
      destruct (dimensions_cell_at fresh c' r' x y Hf Hx Hy) as [w Hw].
      by rewrite Hw, (all_dead_cell_at fresh x y w Hfd Hw).
    - apply Hout; lia. }
  destruct ch'; [|done].
  destruct (proj1 Hch eq_refl) as [?|(x & y & Hx & Hy & Hdiff)]; [done|].
  destruct Hdiff as (v & old & Hv & Hold & Hne).
  destruct (Hdead x y Hx Hy) as [Hv' Hold'].
  rewrite Hv in Hv'. rewrite Hold in Hold'. by simplify_eq.
Qed.

(** X8. A grid without a live cell ends the session at once. In a pass
    over such a grid, in a window no smaller than the grid, with [draw]
    getting through and a polled key that is none of quit, re-seed and
    resize and no pause ended by quit, the new grid is drawn all dead,
    the message that all cells are dead is put up, the program pauses,
    and [main] returns (or the program exits on quit). *)
Theorem dead_grid_ends_session sp s i (fresh : Grid) (c r c' r' : Z) :
  all_dead (grid s) → dimensions (grid s) c r → changed s = false →
  set_up_grid sp (get_grid_dimensions (max_y i) (max_x i)) None
    = Some fresh →
  dimensions fresh c' r' → c ≤ c' → r ≤ r' →
  draw_ok i = true →
  key i ≠ ord "q" → key i ≠ KEY_RESIZE → key i ≠ 10 → key i ≠ 32 →
  ¬ (key i = ord "p" ∧ pause_key i = ord "q") →
  ∃ ev2 si,
    check_input (sleep_interval s) (key i) (pause_key i)
      = (ev2, Polled false si)
    ∧ all_dead fresh
    ∧ loop_body sp s i =
        ([Draw (draw fresh);
          PutMsg (Iterations (iterations s)) (y_padding - 4)]
         ++ ev2
         ++ [PutMsg (Text msg_extinct) (y_padding - 5);
             Pause (ack_key i)],
         if ack_key i =? ord "q" then Exited else Returned si).
Proof.
  intros Hg Hd Hch Hfresh Hf Hc Hr Hdraw Hq Hres H10 H32 Hp.
  pose proof (set_up_grid_unseeded_all_dead _ _ _ Hfresh) as Hfd.
  pose proof (advance_all_dead _ _ _ _ _ _ Hg Hd Hfd Hf Hc Hr) as Ha.
  destruct (check_input_proceeds (sleep_interval s) _ _ Hq Hres H10 H32 Hp)
    as (ev2 & si & Hci).
  exists ev2, si. split; [done|]. split; [done|].
  unfold loop_body. rewrite Hfresh, Hch, Ha, Hdraw, Hci. simpl.
  by rewrite (all_dead_extinct fresh Hfd).
Qed.

Lemma dead_grid_ends_session_witness :
  loop_body 10 (initial_state (replicate 5 (replicate 5 dead_c)) 10)
    (pass_in 4 4 (-1))
  = ([Draw (draw (replicate 5 (replicate 5 dead_c)));
      PutMsg (Iterations 0) 3;
      PutMsg (Text msg_extinct) 2; Pause (-1)],
     Returned 10).
Proof.
  destruct (dead_grid_ends_session 10
              (initial_state (replicate 5 (replicate 5 dead_c)) 10)
              (pass_in 4 4 (-1)) (replicate 5 (replicate 5 dead_c))
              5 5 5 5)
    as (ev2 & si & Hci & _ & Hbody);
    [apply fresh_grid_all_dead | dimensions_of_literal | reflexivity
    |vm_compute; reflexivity | dimensions_of_literal | lia | lia
    |reflexivity | discriminate | discriminate | discriminate
    |discriminate | intros [? _]; discriminate | ].
  vm_compute in Hci. injection Hci as <- <-. exact Hbody.
Defined.

(** ** Grids of a session *)

Lemma main_setup_initial sp my mx rnd ok si s0 :
  main_setup sp my mx rnd ok si = Some s0 →
  ∃ g0, s0 = initial_state g0 si
        ∧ set_up_grid sp (get_grid_dimensions my mx) (Some rnd) = Some g0.
Proof.
  unfold main_setup. intros H.
  destruct (set_up_grid _ _ _) as [g0|]; [|discriminate]. simpl in H.
  destruct ok; [|discriminate]. simplify_eq. eauto.
Qed.

(** A pass that goes on, from a rectangular grid with the [changed] flag
    down: the current grid has a cell, the new grid is a different grid
    of the size of the fresh one, and it is no smaller than the current
    grid. *)
Lemma continue_step_facts sp s i ev s' c r :
  loop_body sp s i = (ev, Continue s') →
  changed s = false → dimensions (grid s) c r →
  ∃ fresh c' r',
    dimensions fresh c' r'
    ∧ advance (grid s) fresh false = Some (grid s', true)
    ∧ dimensions (grid s') c' r'
    ∧ 0 < c ∧ 0 < r ∧ c ≤ c' ∧ r ≤ r'
    ∧ grid s' ≠ grid s.
Proof.
  intros E Hch Hd.
  apply loop_body_Continue in E as (fresh & ch & Hf & Ha & -> & _).
  rewrite Hch in Ha.
  destruct (get_grid_dimensions (max_y i) (max_x i)) as [cols rows].
  pose proof (set_up_grid_dimensions _ _ _ _ _ Hf) as Hfd.
  destruct (advance_inv _ _ _ _ _ _ _ _ _ Hd Hfd Ha)
    as (Hng & _ & _ & Hchg).
  destruct (proj1 Hchg eq_refl) as [?|(x & y & Hx & Hy & _)]; [done|].
  destruct (advance_success _ _ _ _ _ _ _ _ _ Hd Hfd Ha) as [_ Hfit].
  destruct Hfit as [Hc Hr]; [lia..|].
  exists fresh, (Z.max 0 (cols + 1)), (Z.max 0 (rows + 1)).
  split; [done|]. split; [done|]. split; [done|].
  repeat split; try lia.
  exact (advance_changed_ne _ _ _ _ _ _ _ Hd Hfd Ha).
Qed.

Lemma loop_states_rectangular sp s0 ins c0 r0 k :
  changed s0 = false → dimensions (grid s0) c0 r0 →
  ∀ s, loop_states sp s0 ins !! k = Some s →
       ∃ c r, dimensions (grid s) c r.
Proof.
  intros Hch0 Hd0. induction k as [|k IH]; intros s' Hk.
  - apply loop_states_head in Hk. subst. eauto.
  - destruct (lookup_lt_is_Some_2 (loop_states sp s0 ins) k) as [s Hs].
    { apply lookup_lt_Some in Hk. lia. }
    destruct (IH s Hs) as (c & r & Hd).
    destruct (loop_states_step _ _ _ _ _ _ Hs Hk) as (i & ev & E).
    pose proof (loop_states_changed _ _ _ _ _ Hch0 Hs) as Hch.
    destruct (continue_step_facts _ _ _ _ _ _ _ E Hch Hd)
      as (fresh & c' & r' & _ & _ & Hd' & _).
    eauto.
Qed.

Lemma main_setup_rectangular sp my mx rnd ok si s0 :
  main_setup sp my mx rnd ok si = Some s0 →
  changed s0 = false ∧ iterations s0 = 0
  ∧ ∃ c0 r0, dimensions (grid s0) c0 r0.
Proof.
  intros H. apply main_setup_initial in H as (g0 & -> & Hg0).
  split; [done|]. split; [done|].
  destruct (get_grid_dimensions my mx) as [cols rows].
  apply set_up_grid_dimensions in Hg0. simpl. eauto.
Qed.

(** X9. Within a session the grid never gets smaller: between one pass
    and the next the current grid has at least one cell, and the grid of
    the next pass has at least as many columns and as many rows. (A
    window that has become too small for the current grid makes [main]
    return instead.) *)
Theorem session_grid_never_shrinks sp my mx rnd ok si s0 ins (k : nat)
    s s' :
  main_setup sp my mx rnd ok si = Some s0 →
  loop_states sp s0 ins !! k = Some s →
  loop_states sp s0 ins !! S k = Some s' →
  ∃ c r c' r',
    dimensions (grid s) c r ∧ dimensions (grid s') c' r'
    ∧ 0 < c ∧ 0 < r ∧ c ≤ c' ∧ r ≤ r'.
Proof.
  intros H0 Hk HSk.
  destruct (main_setup_rectangular _ _ _ _ _ _ _ H0)
    as (Hch0 & _ & c0 & r0 & Hd0).
  destruct (loop_states_rectangular _ _ _ _ _ _ Hch0 Hd0 _ Hk)
    as (c & r & Hd).
  pose proof (loop_states_changed _ _ _ _ _ Hch0 Hk) as Hch.
  destruct (loop_states_step _ _ _ _ _ _ Hk HSk) as (i & ev & E).
  destruct (continue_step_facts _ _ _ _ _ _ _ E Hch Hd)
    as (fresh & c' & r' & _ & _ & Hd' & Hc & Hr & Hcc & Hrr & _).
  exists c, r, c', r'. repeat split; (apply Hd || apply Hd' || lia).
Qed.

(** X10. The stability message is only put up for a real oscillation.
    In a session started by [main], if the comparison of pass [k] finds
    the new grid equal to the grandfather grid while the counter is
    still active, then [k] is odd, the new grid is the grid of pass
    [k - 1], and the grid in between, the current one, is a different
    grid: the grid has gone from one state to another and back. *)
Theorem stable_message_means_two_cycle sp my mx rnd ok si s0 ins
    (k : nat) s i (ng gf : Grid) :
  main_setup sp my mx rnd ok si = Some s0 →
  loop_states sp s0 ins !! k = Some s →
  iter_counter_active s = true →
  Compare ng gf ∈ (loop_body sp s i).1 → ng = gf →
  ng ≠ grid s
  ∧ Z.of_nat k `mod` 2 = 1
  ∧ ∃ p, loop_states sp s0 ins !! (k - 1)%nat = Some p
         ∧ ng = grid p
         ∧ (∃ fresh, advance (grid p) fresh false = Some (grid s, true))
         ∧ (∃ fresh, advance (grid s) fresh false = Some (ng, true)).
Proof.
  intros H0 Hk Hact Hcmp Heq. subst gf.
  destruct (main_setup_rectangular _ _ _ _ _ _ _ H0)
    as (Hch0 & Hit0 & c0 & r0 & Hd0).
  destruct (loop_states_rectangular _ _ _ _ _ _ Hch0 Hd0 _ Hk)
    as (c & r & Hd).
  pose proof (loop_states_changed _ _ _ _ _ Hch0 Hk) as Hch.
  pose proof (loop_states_counter _ _ _ _ _ Hk Hact) as Hit.
  rewrite Hit0 in Hit.
  destruct (loop_body_compare _ _ _ _ _ Hcmp) as (s' & Ho & Hng & Hgf).
  destruct (loop_body sp s i) as [ev o] eqn:E. simpl in Ho. subst o.
  destruct (continue_step_facts _ _ _ _ _ _ _ E Hch Hd)
    as (fresh & c' & r' & _ & Ha & _ & _ & _ & _ & _ & Hne).
  rewrite Hng in Ha, Hne.
  apply loop_body_Continue in E
    as (_ & _ & _ & _ & _ & _ & Hgf' & _).
  rewrite Hgf, Hit in Hgf'.
  split; [done|].
  destruct (Z.eqb_spec ((0 + Z.of_nat k) `mod` 2) 0) as [Hev|Hodd];
    [by subst|].
  split; [Z.div_mod_to_equations; lia|].
  destruct k as [|k]; [done|].
  destruct (lookup_lt_is_Some_2 (loop_states sp s0 ins) k) as [p Hp].
  { apply lookup_lt_Some in Hk. lia. }
  destruct (loop_states_rectangular _ _ _ _ _ _ Hch0 Hd0 _ Hp)
    as (cp & rp & Hdp).
  pose proof (loop_states_changed _ _ _ _ _ Hch0 Hp) as Hchp.
  destruct (loop_states_step _ _ _ _ _ _ Hp Hk) as (i' & ev' & E').
  destruct (loop_body_active _ _ _ _ _ E' Hact) as [Hap _].
  pose proof (loop_states_counter _ _ _ _ _ Hp Hap) as Hitp.
  rewrite Hit0 in Hitp.
  destruct (continue_step_facts _ _ _ _ _ _ _ E' Hchp Hdp)
    as (fresh' & _ & _ & _ & Ha' & _).
  apply loop_body_Continue in E'
    as (_ & _ & _ & _ & _ & _ & Hgfp & _).
  rewrite Hitp in Hgfp.
  destruct (Z.eqb_spec ((0 + Z.of_nat k) `mod` 2) 0);
    [|rewrite Nat2Z.inj_succ in *; Z.div_mod_to_equations; lia].
  exists p. replace (S k - 1)%nat with k by lia.
  split; [done|]. split; [congruence|]. eauto.
Qed.

Lemma session_grid_never_shrinks_witness :
  ∃ c r c' r',
    dimensions blinker_h c r ∧ dimensions blinker_v c' r'
    ∧ 0 < c ∧ 0 < r ∧ c ≤ c' ∧ r ≤ r'.
Proof.
  refine (session_grid_never_shrinks 19 14 7 blinker_rnd true 10
            (initial_state blinker_h 10) [pass_in 4 4 (-1)] 0
            (initial_state blinker_h 10)
            (State blinker_v blinker_h 1 true false 10) _ _ _);
    vm_compute; reflexivity.
Defined.

Lemma stable_message_means_two_cycle_witness : blinker_h ≠ blinker_v.
Proof.
  refine (proj1 (stable_message_means_two_cycle 19 14 7 blinker_rnd true 10
                   (initial_state blinker_h 10) [pass_in 4 4 (-1)] 1
                   (State blinker_v blinker_h 1 true false 10)
                   (pass_in 4 4 (-1)) blinker_h blinker_h _ _ _ _ _)).
  - vm_compute. reflexivity.
  - vm_compute. reflexivity.
  - reflexivity.
  - vm_compute. do 2 apply list_elem_of_further. apply list_elem_of_here.
  - reflexivity.
Defined.

(** ** How many cells the seeding brings to life *)

Lemma set_cell_insert (g g' : Grid) x y v :
  set_cell g x y v = Some g' →
  ∃ (ky kx : nat) row,
    g !! ky = Some row ∧ g' = <[ky := <[kx := v]> row]> g.
Proof.
  unfold set_cell, getitem, setitem. intros H.
  destruct (py_index y (len g)) as [ky|]; [|discriminate]. simpl in H.
  destruct (g !! ky) as [row|] eqn:Er; [|discriminate]. simpl in H.
  destruct (py_index x (len row)) as [kx|]; [|discriminate]. simpl in H.
  simplify_eq. eauto.
Qed.

Lemma count_insert_le (P : cell → Prop) `{∀ c, Decision (P c)}
    (l : list cell) (k : nat) v :
  (length (filter P (<[k := v]> l)) ≤ S (length (filter P l)))%nat.
Proof.
  revert k. induction l as [|a l IH]; intros k; [simpl; lia|].
  destruct k as [|k]; simpl.
  - rewrite !filter_cons.
    destruct (decide (P v)), (decide (P a)); simpl; lia.
  - rewrite !filter_cons. specialize (IH k).
    destruct (decide (P a)); simpl; lia.
Qed.

Lemma count_concat_insert_le (P : cell → Prop) `{∀ c, Decision (P c)}
    (g : Grid) (ky : nat) row row' :
  g !! ky = Some row →
  (length (filter P row') ≤ S (length (filter P row)))%nat →
  (length (filter P (concat (<[ky := row']> g)))
   ≤ S (length (filter P (concat g))))%nat.
Proof.
  revert ky. induction g as [|a g IH]; intros ky Hrow Hle; [done|].
  destruct ky as [|ky]; simpl in *.
  - simplify_eq. rewrite !filter_app, !length_app. lia.
  - rewrite !filter_app, !length_app. specialize (IH ky Hrow Hle). lia.
Qed.

Lemma set_cell_count_alive (g g' : Grid) x y v :
  set_cell g x y v = Some g' →
  (count_alive g' ≤ S (count_alive g))%nat.
Proof.
  intros H. apply set_cell_insert in H as (ky & kx & row & Hrow & ->).
  unfold count_alive. eapply count_concat_insert_le; [exact Hrow|].
  apply count_insert_le.
Qed.

Lemma seed_loop_count_alive n rnd rows cols j (g g' : Grid) :
  seed_loop n rnd rows cols j g = Some g' →
  (count_alive g' ≤ count_alive g + n)%nat.
Proof.
  revert j g. induction n as [|n IH]; intros j g H; simpl in H.
  - simplify_eq. lia.
  - destruct (seed_trial rnd rows cols j) as [[x y]|]; [|discriminate].
    simpl in H.
    destruct (set_cell g x y alive_c) as [g1|] eqn:E; [|discriminate].
    simpl in H. apply IH in H. apply set_cell_count_alive in E. lia.
Qed.

Lemma all_dead_count_alive (g : Grid) : all_dead g → count_alive g = 0%nat.
Proof.
  unfold count_alive. intros Hg.
  induction Hg as [|row g Hrow Hg IH]; [done|].
  simpl. rewrite filter_app, length_app, IH.
  assert (filter (fun c => c = alive_c) row = []) as ->; [|done].
  induction Hrow as [|c row Hc Hrow IHrow]; [done|].
  rewrite filter_cons, IHrow. subst c. by destruct (decide _).
Qed.

(** X11. What seeding can and cannot bring to life, for a window of
    positive size and a pass count that is a C long. [set_up_grid]
    returns a grid whose live cells are at most as many as the seeding
    passes (the same cell may be picked twice), and every cell of the
    extra row and of the extra column is dead: the picks stay inside
    [0, cols) x [0, rows). *)
Theorem seeding_stays_inside_and_below_count sp (cols rows : Z) rnd n :
  seed_count sp rows cols = Some n → 0 < cols → 0 < rows →
  c_long (cols + 1) → c_long (rows + 1) → c_long n →
  ∃ g, set_up_grid sp (cols, rows) (Some rnd) = Some g
       ∧ (count_alive g ≤ Z.to_nat n)%nat
       ∧ (∀ x y, 0 ≤ x ≤ cols → 0 ≤ y ≤ rows → x = cols ∨ y = rows →
            cell_at g x y = Some dead_c).
Proof.
  intros Hn Hc Hr Hlc Hlr Hln.
  destruct (set_up_grid_seeded sp cols rows rnd n Hn Hc Hr Hlc Hlr Hln)
    as (g & Hg & _ & Hmiss).
  exists g. split; [done|]. split.
  - apply set_up_grid_inv in Hg as (seeds & Hseeds & passes & Hp & Hg).
    rewrite Hn in Hseeds. simplify_eq. apply xrange_Some in Hp. subst.
    apply seed_loop_count_alive in Hg.
    rewrite (all_dead_count_alive _ (fresh_grid_all_dead _ _)) in Hg. lia.
  - intros x y Hx Hy Hedge. apply Hmiss; [done..|].
    intros j _ Hj.
    destruct (seed_trial_range rnd rows cols j Hc Hr)
      as (x' & y' & Ht & Hx' & Hy').
    rewrite Ht in Hj. simplify_eq. lia.
Qed.

Lemma seeding_stays_inside_and_below_count_witness :
  ∃ g, set_up_grid 200 (2, 2) (Some sample_rnd) = Some g
       ∧ (count_alive g ≤ Z.to_nat 8)%nat
       ∧ (∀ x y, 0 ≤ x ≤ 2 → 0 ≤ y ≤ 2 → x = 2 ∨ y = 2 →
            cell_at g x y = Some dead_c).
Proof.
  apply (seeding_stays_inside_and_below_count 200 2 2 sample_rnd 8).
  - vm_compute. reflexivity.
  - lia.
  - lia.
  - c_long_of_literal.
  - c_long_of_literal.
  - c_long_of_literal.
Defined.

(** ** Where [draw] writes *)

Lemma draw_row_length row y_cnt x_cnt :
  length (draw_row row y_cnt x_cnt) = length row.
Proof.
  revert x_cnt. induction row as [|v row IH]; intros x_cnt; simpl;
    [done|]. by rewrite IH.
Qed.

Lemma draw_rows_length (g : Grid) y_cnt :
  length (draw_rows g y_cnt) = length (concat g).
Proof.
  revert y_cnt. induction g as [|row g IH]; intros y_cnt; simpl; [done|].
  by rewrite !length_app, draw_row_length, IH.
Qed.

(** X12. [draw] makes exactly one [addstr] call per cell of the grid,
    whatever its shape: the cell at [(x, y)] is written at line [y + 1],
    column [x + 1], with colour pair 2 if it is alive and colour pair 1
    otherwise, and nothing else is written. *)
Theorem draw_one_call_per_cell (g : Grid) :
  length (draw g) = length (concat g)
  ∧ (∀ call, call ∈ draw g ↔
       ∃ x y v, 0 ≤ x ∧ 0 ≤ y ∧ cell_at g x y = Some v
                ∧ call = Addstr (y + 1) (x + 1) v (color_of v))
  ∧ (∀ v, color_of v = 2 ↔ v = alive_c)
  ∧ (∀ v, v ≠ alive_c → color_of v = 1).
Proof.
  split; [apply draw_rows_length|]. split; [apply elem_of_draw|].
  unfold color_of. split; intros v.
  - destruct (String.eqb_spec v alive_c); split; (done || lia).
  - by destruct (String.eqb_spec v alive_c).
Qed.

(** X13. The grid made for a window fits it. For the grid [set_up_grid]
    returns for a window of [max_y] lines and [max_x] columns, every
    call of [draw] is at a column from 1 to [max_x - 2] and at a line
    from 1 up to the line before the message pad: neither the border
    of the window nor the pad is written on. When the window leaves
    room for a grid, the last cell is written at line
    [messages_begin_y max_y - 1], column [max_x - 2]: thanks to the
    extra row and column the grid fills the area exactly. *)
Theorem draw_fits_window sp (my mx : Z) seed (g : Grid) :
  set_up_grid sp (get_grid_dimensions my mx) seed = Some g →
  (∀ call, call ∈ draw g →
     1 ≤ at_x call ≤ mx - 2 ∧ 1 ≤ at_y call < messages_begin_y my)
  ∧ (3 ≤ mx → 10 ≤ my →
     ∃ v, Addstr (messages_begin_y my - 1) (mx - 2) v (color_of v)
            ∈ draw g).
Proof.
  unfold get_grid_dimensions, messages_begin_y, x_padding, y_padding.
  intros Hg. pose proof (set_up_grid_dimensions _ _ _ _ _ Hg) as Hd.
  split.
  - intros call Hcall.
    destruct (dimensions_drawn_within _ _ _ Hd call Hcall). lia.
  - intros Hmx Hmy.
    destruct (dimensions_cell_at g _ _ (mx - 3) (my - 10) Hd) as [v Hv];
      [lia..|].
    exists v. apply elem_of_draw. exists (mx - 3), (my - 10), v.
    repeat split; try (done || lia). f_equal; lia.
Qed.

Lemma draw_fits_window_witness :
  ∃ v, Addstr (messages_begin_y 14 - 1) (7 - 2) v (color_of v)
         ∈ draw (replicate 5 (replicate 5 dead_c)).
Proof.
  refine (proj2 (draw_fits_window 10 14 7 None _ _) _ _); try lia.
  vm_compute. reflexivity.
Defined.

(** ** A terminal [init_curses] accepts *)

(** X14. In a terminal that passes the size test of [init_curses] (at
    least 24 lines and 80 columns), [main] gets its first grid whenever
    the pass count of the seeding is a C long: the random picks have a
    non-empty range, so no [ValueError] is raised, and the grid has
    [max_x - 2] columns and [max_y - 9] rows, at least 78 by 15. (A
    pass count beyond [sys.maxint], as a seed percentage of 10^18 gives
    at 24 by 80, makes [xrange] raise instead.) *)
Theorem accepted_terminal_is_seeded sp (my mx : Z) rnd si n :
  terminal_too_small my mx = false →
  my ≤ maxint → mx ≤ maxint →
  seed_count sp (my - y_padding - 3) (mx - x_padding - 2) = Some n →
  c_long n →
  ∃ g, main_setup sp my mx rnd true si = Some (initial_state g si)
       ∧ dimensions g (mx - 2) (my - 9)
       ∧ 78 ≤ mx - 2 ∧ 15 ≤ my - 9.
Proof.
  unfold terminal_too_small, x_padding, y_padding.
  intros Hsize Hmy Hmx Hn Hln.
  apply orb_false_elim in Hsize as [Hy Hx].
  apply Z.ltb_ge in Hy, Hx. pose proof maxint_nonneg.
  destruct (set_up_grid_seeded sp (mx - 1 - 2) (my - 7 - 3) rnd n Hn)
    as (g & Hg & _); [lia|lia|unfold c_long; lia..|done|].
  exists g. unfold main_setup, get_grid_dimensions, x_padding, y_padding.
  rewrite Hg. simpl. split; [done|].
  apply set_up_grid_dimensions in Hg.
  replace (Z.max 0 (mx - 1 - 2 + 1)) with (mx - 2) in Hg by lia.
  replace (Z.max 0 (my - 7 - 3 + 1)) with (my - 9) in Hg by lia.
  split; [done|]. lia.
Qed.

Lemma accepted_terminal_is_seeded_witness :
  ∃ g, main_setup 10 24 80 sample_rnd true 10 = Some (initial_state g 10)
       ∧ dimensions g (80 - 2) (24 - 9)
       ∧ 78 ≤ 80 - 2 ∧ 15 ≤ 24 - 9.
Proof.
  apply (accepted_terminal_is_seeded 10 24 80 sample_rnd 10 107).
  - reflexivity.
  - vm_compute. discriminate.
  - vm_compute. discriminate.
  - vm_compute. reflexivity.
  - c_long_of_literal.
Defined.

(** The case left out above: a pass count that is not a C long makes
    the seeding raise. *)
Lemma set_up_grid_overflow sp cols rows rnd n :
  seed_count sp rows cols = Some n → ¬ c_long n →
  set_up_grid sp (cols, rows) (Some rnd) = None.
Proof.
  intros Hn Hnot.
  destruct (set_up_grid sp (cols, rows) (Some rnd)) as [g|] eqn:Hg;
    [|done].
  apply set_up_grid_inv in Hg as (seeds & Hseeds & passes & Hp & _).
  rewrite Hn in Hseeds. simplify_eq. unfold xrange in Hp.
  destruct (Z.leb_spec (- maxint - 1) seeds), (Z.leb_spec seeds maxint);
    simpl in Hp; try discriminate.
  destruct Hnot. by split.
Qed.

Example seed_percentage_beyond_maxint :
  seed_count (10 ^ 18) 14 77 = Some 10780000000000000000
  ∧ set_up_grid (10 ^ 18) (77, 14) (Some sample_rnd) = None.
Proof. split; vm_compute; reflexivity. Qed.

(** ** The neighbour count *)

Lemma count_if_inv x y (g : Grid) s s' :
  count_if x y g s = Some s' →
  ∃ b : bool, get_coordinate_value x y g = Some b
              ∧ s' = s + (if b then 1 else 0).
Proof.
  unfold count_if. intros H.
  destruct (get_coordinate_value x y g) as [b|]; [|discriminate].
  simpl in H. simplify_eq. exists b. split; [done|]. destruct b; lia.
Qed.

Lemma count_offsets_spec offsets x y (g : Grid) :
  ∀ s n,
    count_offsets offsets x y g s = Some n →
    n = s + Z.of_nat (length (filter
          (fun d => get_coordinate_value (x + d.1) (y + d.2) g = Some true)
          offsets)).
Proof.
  induction offsets as [|[dx dy] offsets IH]; intros s n H; simpl in H.
  - simplify_eq. simpl. lia.
  - destruct (count_if (x + dx) (y + dy) g s) as [s1|] eqn:E;
      [|discriminate].
    simpl in H. apply IH in H.
    apply count_if_inv in E as (b & Hb & ->).
    rewrite filter_cons. simpl.
    destruct (decide (get_coordinate_value (x + dx) (y + dy) g = Some true))
      as [Ht|Hf].
    + rewrite Ht in Hb. simplify_eq. simpl. lia.
    + destruct b; [done|]. lia.
Qed.

Lemma sum_adjecent_fields_offsets x y (g : Grid) :
  sum_adjecent_fields x y g = count_offsets neighbour_offsets x y g 0.
Proof.
  unfold sum_adjecent_fields, neighbour_offsets. cbn [count_offsets].
  rewrite !Z.add_0_r.
  change (x + -1) with (x - 1). change (y + -1) with (y - 1).
  repeat match goal with
         | |- (?m ≫= _) = (?m ≫= _) =>
             destruct m; simpl; [|done]
         end.
  by destruct (count_if x (y + 1) g _).
Qed.

(** X1. The neighbour count on a grid of [cols] x [rows] cells, for a
    cell of the grid: it is defined (no [IndexError]), it lies between
    0 and 8, and it is the number of the eight offsets whose wrapped
    lookup finds a live cell. Offsets that wrap to the same cell are
    counted each time: on a grid of a single cell a live cell has 8
    live neighbours, itself eight times. *)
Theorem neighbour_count (g : Grid) (cols rows x y : Z) :
  dimensions g cols rows → 0 ≤ x < cols → 0 ≤ y < rows →
  ∃ n, sum_adjecent_fields x y g = Some n
       ∧ 0 ≤ n ≤ 8
       ∧ n = Z.of_nat (length (filter
               (fun d =>
                  get_coordinate_value (x + d.1) (y + d.2) g = Some true)
               neighbour_offsets))
       ∧ (cols = 1 → rows = 1 →
          ∃ b : bool, get_coordinate_value x y g = Some b
                      ∧ n = if b then 8 else 0).
Proof.
  intros Hd Hx Hy.
  destruct (neighbourhood_defined g cols rows x y Hd Hx Hy)
    as (n & v & Hn & _).
  exists n. split; [done|].
  split; [by eapply sum_adjecent_fields_range|]. split.
  - rewrite sum_adjecent_fields_offsets in Hn.
    apply count_offsets_spec in Hn. lia.
  - intros -> ->. assert (x = 0) as -> by lia. assert (y = 0) as -> by lia.
    destruct Hd as [Hlen Hall].
    destruct g as [|row [|]]; try (unfold len in Hlen; simpl in Hlen; lia).
    apply Forall_cons in Hall as [Hrow _].
    destruct row as [|c [|]]; try (unfold len in Hrow; simpl in Hrow; lia).
    exists (String.eqb c alive_c). split; [reflexivity|].
    revert Hn. unfold sum_adjecent_fields, count_if, get_coordinate_value.
    simpl. destruct (String.eqb c alive_c); intros; by simplify_eq.
Qed.

Lemma neighbour_count_witness :
  ∃ n, sum_adjecent_fields 2 1 blinker_h = Some n
       ∧ 0 ≤ n ≤ 8
       ∧ n = Z.of_nat (length (filter
               (fun d =>
                  get_coordinate_value (2 + d.1) (1 + d.2) blinker_h
                  = Some true)
               neighbour_offsets))
       ∧ (5 = 1 → 5 = 1 →
          ∃ b : bool, get_coordinate_value 2 1 blinker_h = Some b
                      ∧ n = if b then 8 else 0).
Proof.
  apply (neighbour_count blinker_h 5 5 2 1); [|lia|lia].
  dimensions_of_literal.
Defined.

(** ** Flagging an oscillator *)

(** A quiet pass whose generation step changes a cell. *)
Lemma loop_body_quiet sp s i (fresh ng : Grid) :
  quiet sp fresh i →
  advance (grid s) fresh (changed s) = Some (ng, true) →
  ∃ ev s',
    loop_body sp s i = (ev, Continue s')
    ∧ grid s' = ng
    ∧ grandfather_grid s' =
        (if iterations s `mod` 2 =? 0 then grid s else grandfather_grid s)
    ∧ iter_counter_active s' =
        (if bool_decide (ng = grandfather_grid s') then false
         else iter_counter_active s)
    ∧ iterations s' =
        (if iter_counter_active s' then iterations s + 1 else iterations s)
    ∧ changed s' = false
    ∧ (ng = grandfather_grid s' →
       PutMsg (Text msg_stable) (y_padding - 5) ∈ ev).
Proof.
  intros (Hf & Hdraw & Hq & Hres & H10 & H32 & Hp) Ha.
  destruct (check_input_proceeds (sleep_interval s) _ _ Hq Hres H10 H32 Hp)
    as (ev2 & si & Hci).
  unfold loop_body. rewrite Hf, Ha, Hdraw, Hci. simpl.
  eexists _, _. split; [reflexivity|]. simpl.
  repeat split. intros Heq.
  rewrite bool_decide_eq_true_2 by done.
  do 2 apply list_elem_of_further. apply elem_of_app. right.
  apply list_elem_of_further, list_elem_of_here.
Qed.

Lemma main_loop_events_here sp s i ins ev s' e :
  loop_body sp s i = (ev, Continue s') → e ∈ ev →
  e ∈ (main_loop sp s (i :: ins)).1.
Proof.
  intros E He. simpl. rewrite E.
  destruct (main_loop sp s' ins) as [ev' o]. simpl.
  apply elem_of_app. by left.
Qed.

Lemma main_loop_events_later sp s i ins ev s' e :
  loop_body sp s i = (ev, Continue s') →
  e ∈ (main_loop sp s' ins).1 →
  e ∈ (main_loop sp s (i :: ins)).1.
Proof.
  intros E He. simpl. rewrite E.
  destruct (main_loop sp s' ins) as [ev' o]. simpl in *.
  apply elem_of_app. by right.
Qed.

(** X15. An oscillator of period 2 is flagged within three passes. From
    any state of the loop whose counter is active and whose grid [a]
    steps to a grid [b] that steps back to [a], in a window of steady
    size and with nothing but benign keys, the stability message is put
    up during the next three passes, and during the next two when the
    counter is even. *)
Theorem oscillator_flagged_within_three_passes sp s (a b fresh : Grid)
    i1 i2 i3 :
  grid s = a → changed s = false → iter_counter_active s = true →
  quiet sp fresh i1 → quiet sp fresh i2 → quiet sp fresh i3 →
  advance a fresh false = Some (b, true) →
  advance b fresh false = Some (a, true) →
  PutMsg (Text msg_stable) (y_padding - 5)
    ∈ (main_loop sp s [i1; i2; i3]).1
  ∧ (iterations s `mod` 2 = 0 →
     PutMsg (Text msg_stable) (y_padding - 5)
       ∈ (main_loop sp s [i1; i2]).1).
Proof.
  intros Hg Hch Hact Hq1 Hq2 Hq3 Hab Hba.
  destruct (loop_body_quiet sp s i1 fresh b Hq1)
    as (ev1 & s1 & E1 & Hg1 & Hgf1 & Ha1 & Hi1 & Hch1 & Hm1).
  { by rewrite Hg, Hch. }
  destruct (loop_body_quiet sp s1 i2 fresh a Hq2)
    as (ev2 & s2 & E2 & Hg2 & Hgf2 & Ha2 & Hi2 & Hch2 & Hm2).
  { by rewrite Hg1, Hch1. }
  destruct (loop_body_quiet sp s2 i3 fresh b Hq3)
    as (ev3 & s3 & E3 & Hg3 & Hgf3 & Ha3 & Hi3 & Hch3 & Hm3).
  { by rewrite Hg2, Hch2. }
  rewrite Hg in Hgf1. rewrite Hg1 in Hgf2. rewrite Hg2 in Hgf3.
  destruct (decide (b = grandfather_grid s1)) as [Hst1|Hn1].
  { split; intros; eapply main_loop_events_here; eauto. }
  rewrite bool_decide_eq_false_2, Hact in Ha1 by done.
  rewrite Ha1 in Hi1. rewrite Hi1 in Hgf2.
  destruct (decide (a = grandfather_grid s2)) as [Hst2|Hn2].
  { split; intros; (eapply main_loop_events_later; [exact E1|]);
      eapply main_loop_events_here; eauto. }
  rewrite bool_decide_eq_false_2, Ha1 in Ha2 by done.
  rewrite Ha2, Hi1 in Hi2. rewrite Hi2 in Hgf3.
  destruct (Z.eqb_spec (iterations s `mod` 2) 0) as [Hev|Hodd].
  - (* even counter: the second pass compares [a] with the snapshot [a] *)
    exfalso. apply Hn2. rewrite Hgf2.
    destruct (Z.eqb_spec ((iterations s + 1) `mod` 2) 0);
      [Z.div_mod_to_equations; lia|done].
  - (* odd counter: the third pass compares [b] with the snapshot [b] *)
    split; [|done].
    eapply main_loop_events_later; [exact E1|].
    eapply main_loop_events_later; [exact E2|].
    eapply main_loop_events_here; [exact E3|].
    apply Hm3. rewrite Hgf3, Hgf2.
    destruct (Z.eqb_spec ((iterations s + 1 + 1) `mod` 2) 0);
      [Z.div_mod_to_equations; lia|].
    destruct (Z.eqb_spec ((iterations s + 1) `mod` 2) 0);
      [done|Z.div_mod_to_equations; lia].
Qed.

Lemma oscillator_flagged_within_three_passes_witness :
  PutMsg (Text msg_stable) (y_padding - 5)
    ∈ (main_loop 10 (initial_state blinker_h 10)
         [pass_in 4 4 (-1); pass_in 4 4 (-1)]).1.
Proof.
  assert (quiet 10 (replicate 5 (replicate 5 dead_c)) (pass_in 4 4 (-1)))
    as Hq.
  { split; [vm_compute; reflexivity|]. split; [reflexivity|].
    repeat split; try discriminate. intros [? _]. discriminate. }
  refine (proj2 (oscillator_flagged_within_three_passes 10
                   (initial_state blinker_h 10) blinker_h blinker_v
                   (replicate 5 (replicate 5 dead_c))
                   (pass_in 4 4 (-1)) (pass_in 4 4 (-1)) (pass_in 4 4 (-1))
                   eq_refl eq_refl eq_refl Hq Hq Hq _ _) _);
    vm_compute; reflexivity.
Defined.
